(** * arewefastyet: execution lifecycle, queue scheduler and comparator

    A shallow embedding of [go/exec/exec.go] (package [exec]: [Prepare],
    [Execute], [Exists]) and of the execution-queue part of package
    [server] ([executeElement], [compareElement], [checkIfExecutionExists],
    [cronExecutionQueueWatcher], [decrementNumberOfOnGoingExecution]).

    Conventions.
    - A Go [error] is its message; [nil] is [None].
    - Go [int] values ([retry], [currentCountExec], [done], [PullNb]) are
      [Z]. The code only ever adds or subtracts one next to a comparison
      that keeps the value far from the 64-bit bounds, so no wrap-around
      can occur on the paths modelled here.
    - Calls that leave the process (SQL statements, the infrastructure
      provider, Ansible file rewriting, notifications) take their outcome
      from an explicit environment argument, so that every theorem
      quantifies over all the ways the outside world can answer. *)

From stdpp Require Import gmap strings list.
From Stdlib Require Import ZArith Lia.
From Equations Require Import Equations.
From Equations.Prop Require Import Logic.

Open Scope Z_scope.

(** Go's [error] interface, reduced to the message. *)
Definition error : Type := string.

Inductive result (A : Type) : Type :=
| Ok (a : A)
| Err (e : error).
Arguments Ok {A} a.
Arguments Err {A} e.

(** ** The SQL client ([go/storage/mysql], interface only) *)
Module mysql.

(** One row of table [execution]. The columns [uuid], [status],
    [source], [git_ref], [type], [started_at] and [finished_at] are the
    ones named by the statements of exec.go. [planner_version] and
    [pull_nb] are the attributes that the server passes to
    [GetFinishedExecution] and [ExistsMacrobenchmark]; the INSERT of
    [Prepare] does not mention them, so they take their default there. *)
Record Row : Type := {
  uuid : string;
  status : string;
  source : string;
  git_ref : string;
  type_ : string;
  planner_version : string;
  pull_nb : Z;
  started_at : option Z;
  finished_at : option Z
}.

#[global] Instance Row_eq_dec : EqDecision Row.
Proof. solve_decision. Defined.

(** The three data-modifying statements that exec.go sends through
    [Client.Insert], with their [?] arguments in order. *)
Inductive Stmt : Type :=
| InsertExecution (uuid status source git_ref type_ : string)
    (* INSERT INTO execution(uuid, status, source, git_ref, type) VALUES(?, ?, ?, ?, ?) *)
| UpdateStarted (status uuid : string)
    (* UPDATE execution SET started_at = CURRENT_TIME, status = ? WHERE uuid = ? *)
| UpdateFinished (status uuid : string).
    (* UPDATE execution SET finished_at = CURRENT_TIME, status = ? WHERE uuid = ? *)

#[global] Instance Stmt_eq_dec : EqDecision Stmt.
Proof. solve_decision. Defined.

(** The table, and a journal of every statement handed to the client
    together with whether the server executed it. *)
Record DB : Type := {
  rows : list Row;
  journal : list (Stmt * bool)
}.

Definition ConfigDB : Type := string.

(** A [*mysql.Client]; in [Exec] the field is [nil] until [mysql.New]
    has returned one. *)
Record Client : Type := { cfg : ConfigDB }.

Definition ErrorClientConnectionNotInitialized : error :=
  "the client connection to the database is not initialized".

(** How the database server answers one statement: it executes it at
    server time [now], or it reports an error and changes nothing. *)
Inductive answer : Type :=
| Done (now : Z)
| Refused (e : error).

Definition set_started (now : Z) (st : string) (r : Row) : Row :=
  {| uuid := uuid r; status := st; source := source r; git_ref := git_ref r;
     type_ := type_ r; planner_version := planner_version r;
     pull_nb := pull_nb r; started_at := Some now;
     finished_at := finished_at r |}.

Definition set_finished (now : Z) (st : string) (r : Row) : Row :=
  {| uuid := uuid r; status := st; source := source r; git_ref := git_ref r;
     type_ := type_ r; planner_version := planner_version r;
     pull_nb := pull_nb r; started_at := started_at r;
     finished_at := Some now |}.

(** SQL semantics of the three statements on the table. *)
Definition run_stmt (now : Z) (q : Stmt) (t : list Row) : list Row :=
  match q with
  | InsertExecution u st src ref ty =>
      t ++ [ {| uuid := u; status := st; source := src; git_ref := ref;
                type_ := ty; planner_version := ""; pull_nb := 0;
                started_at := None; finished_at := None |} ]
  | UpdateStarted st u =>
      (λ r, if decide (uuid r = u) then set_started now st r else r) <$> t
  | UpdateFinished st u =>
      (λ r, if decide (uuid r = u) then set_finished now st r else r) <$> t
  end.

(** Modelled from the spec: [Client.Insert] is declared in
    go/storage/mysql, a file not available here. The spec gives the store the
    operations insert and updateStatus and the failure StoreUnavailable;
    here a statement sent through a [nil] client, or refused by the
    server, returns an error and leaves the table as it was. *)
Definition Insert (c : option Client) (a : answer) (q : Stmt) (db : DB)
  : DB * option error :=
  match c, a with
  | None, _ =>
      ({| rows := rows db; journal := journal db ++ [(q, false)] |},
       Some ErrorClientConnectionNotInitialized)
  | Some _, Refused e =>
      ({| rows := rows db; journal := journal db ++ [(q, false)] |}, Some e)
  | Some _, Done now =>
      ({| rows := run_stmt now q (rows db);
          journal := journal db ++ [(q, true)] |}, None)
  end.

(** [sql.Rows]: the cursor over the selected values; [Next] reports
    whether a row is available. *)
Definition Rows : Type := list string.

Definition Next (r : Rows) : bool :=
  match r with
  | [] => false
  | _ :: _ => true
  end.

(** SELECT uuid FROM execution
    WHERE status = ? AND git_ref = ? AND type = ? AND source = ? *)
Definition matches_exists (st ref ty src : string) (r : Row) : Prop :=
  status r = st ∧ git_ref r = ref ∧ type_ r = ty ∧ source r = src.

#[global] Instance matches_exists_dec st ref ty src r :
  Decision (matches_exists st ref ty src r).
Proof. unfold matches_exists. apply _. Defined.

Definition select_exists (st ref ty src : string) (t : list Row) : Rows :=
  uuid <$> filter (matches_exists st ref ty src) t.

(** Modelled from the spec: [Client.Select] is declared in
    go/storage/mysql, a file not available here;
    a select that fails ([Some e]) yields the error and no cursor. *)
Definition Select (c : option Client) (fault : option error)
    (q : list Row → Rows) (db : DB) : result Rows :=
  match c, fault with
  | None, _ => Err ErrorClientConnectionNotInitialized
  | Some _, Some e => Err e
  | Some _, None => Ok (q (rows db))
  end.

End mysql.

(** ** Package [exec]: the lifecycle of one run (go/exec/exec.go) *)
Module exec.
Import mysql.

Definition ErrorNotPrepared : error := "exec is not prepared".

(** Modelled from the spec: the status constants are declared in package
    [exec] in a file not available here. The spec lists the four statuses Created,
    Started, Finished and Failed; ["finished"] is the literal that the
    queries of exec.go compare the column with. *)
Definition StatusCreated : string := "created".
Definition StatusStarted : string := "started".
Definition StatusFailed : string := "failed".
Definition StatusFinished : string := "finished".

Definition keyExecUUID : string := "arewefastyet_exec_uuid".
Definition keyExecSource : string := "arewefastyet_source".
Definition keyVitessVersion : string := "vitess_git_version".

(** Modelled from the spec: [git.ShortenSHA] lives in go/tools/git,
    a file not available here; the spec calls its result the shortened ref. exec.go
    prints seven characters of a UUID next to it, the same length is
    taken here. *)
Definition ShortenSHA (sha : string) : string := String.substring 0 7 sha.

(** The fields of [Exec] that [Prepare] and [Execute] read or write.
    [ExtraVars] is [AnsibleConfig.ExtraVars], a Go map that is [nil]
    ([None]) until [Prepare] allocates it; [statsRemoteDBConfig] is kept
    as the variables that its [AddToAnsible] puts into that map;
    [InfraTags] is what [Infra.SetTags] stored in the provider. *)
Record Exec : Type := {
  UUID : string;
  Source : string;
  GitRef : string;
  typeOf : string;
  configDB : ConfigDB;
  clientDB : option Client;
  statsRemoteDBConfig : gmap string string;
  rootDir : string;
  dirPath : string;
  prepared : bool;
  configPath : string;
  ExtraVars : option (gmap string string);
  InfraTags : gmap string string
}.

Definition set_clientDB (c : option Client) (e : Exec) : Exec :=
  {| UUID := UUID e; Source := Source e; GitRef := GitRef e;
     typeOf := typeOf e; configDB := configDB e; clientDB := c;
     statsRemoteDBConfig := statsRemoteDBConfig e; rootDir := rootDir e;
     dirPath := dirPath e; prepared := prepared e;
     configPath := configPath e; ExtraVars := ExtraVars e;
     InfraTags := InfraTags e |}.

Definition set_InfraTags (t : gmap string string) (e : Exec) : Exec :=
  {| UUID := UUID e; Source := Source e; GitRef := GitRef e;
     typeOf := typeOf e; configDB := configDB e; clientDB := clientDB e;
     statsRemoteDBConfig := statsRemoteDBConfig e; rootDir := rootDir e;
     dirPath := dirPath e; prepared := prepared e;
     configPath := configPath e; ExtraVars := ExtraVars e;
     InfraTags := t |}.

Definition set_dirPath (d : string) (e : Exec) : Exec :=
  {| UUID := UUID e; Source := Source e; GitRef := GitRef e;
     typeOf := typeOf e; configDB := configDB e; clientDB := clientDB e;
     statsRemoteDBConfig := statsRemoteDBConfig e; rootDir := rootDir e;
     dirPath := d; prepared := prepared e;
     configPath := configPath e; ExtraVars := ExtraVars e;
     InfraTags := InfraTags e |}.

Definition set_configPath (p : string) (e : Exec) : Exec :=
  {| UUID := UUID e; Source := Source e; GitRef := GitRef e;
     typeOf := typeOf e; configDB := configDB e; clientDB := clientDB e;
     statsRemoteDBConfig := statsRemoteDBConfig e; rootDir := rootDir e;
     dirPath := dirPath e; prepared := prepared e;
     configPath := p; ExtraVars := ExtraVars e;
     InfraTags := InfraTags e |}.

Definition set_ExtraVars (v : option (gmap string string)) (e : Exec) : Exec :=
  {| UUID := UUID e; Source := Source e; GitRef := GitRef e;
     typeOf := typeOf e; configDB := configDB e; clientDB := clientDB e;
     statsRemoteDBConfig := statsRemoteDBConfig e; rootDir := rootDir e;
     dirPath := dirPath e; prepared := prepared e;
     configPath := configPath e; ExtraVars := v;
     InfraTags := InfraTags e |}.

Definition set_prepared (b : bool) (e : Exec) : Exec :=
  {| UUID := UUID e; Source := Source e; GitRef := GitRef e;
     typeOf := typeOf e; configDB := configDB e; clientDB := clientDB e;
     statsRemoteDBConfig := statsRemoteDBConfig e; rootDir := rootDir e;
     dirPath := dirPath e; prepared := b;
     configPath := configPath e; ExtraVars := ExtraVars e;
     InfraTags := InfraTags e |}.

(** What the outside world answers to the calls of one [Prepare]. *)
Record PrepareEnv : Type := {
  mysql_New : result Client;            (* mysql.New on the configuration of e *)
  insert_created : answer;              (* the INSERT of the record *)
  prepareDirectories : result string;   (* e.prepareDirectories(): the directory made *)
  Infra_Prepare : option error;         (* e.Infra.Prepare() *)
  viper_ConfigFileUsed : string         (* viper.ConfigFileUsed() *)
}.

(** [func (e *Exec) Prepare() error], exec.go lines 137-175. The result
    is the returned error, the receiver after the call and the store
    after the call. *)
Definition Prepare (env : PrepareEnv) (e : Exec) (db : DB)
  : option error * Exec * DB :=
  if prepared e then (None, e, db)
  else
    match mysql_New env with
    | Err err => (Some err, set_clientDB None e, db)
    | Ok c =>
        let e := set_clientDB (Some c) e in
        match Insert (clientDB e) (insert_created env)
                (InsertExecution (UUID e) StatusCreated (Source e) (GitRef e) (typeOf e))
                db with
        | (db, Some err) => (Some err, e, db)
        | (db, None) =>
            let e := set_InfraTags
                       {[ "execution_git_ref" := ShortenSHA (GitRef e);
                          "execution_source" := Source e ]} e in
            match prepareDirectories env with
            | Err err => (Some err, e, db)
            | Ok d =>
                let e := set_dirPath d e in
                match Infra_Prepare env with
                | Some err => (Some err, e, db)
                | None =>
                    let e := if decide (configPath e = "")
                             then set_configPath (viper_ConfigFileUsed env) e
                             else e in
                    let e := set_ExtraVars (Some (statsRemoteDBConfig e)) e in
                    (None, set_prepared true e, db)
                end
            end
        end
    end.

(** How the run step [e.Infra.Run(&e.AnsibleConfig)] can end. *)
Inductive run_outcome : Type :=
| RunNil
| RunErr (e : error)
| RunPanic (v : string).

(** What the outside world answers to the calls of one [Execute]. *)
Record ExecuteEnv : Type := {
  update_started : answer;                    (* the UPDATE to Started *)
  provision : result (list string);           (* e.provision() *)
  AddIPsToFiles : option error;               (* ansible.AddIPsToFiles *)
  AddLocalConfigPathToFiles : option error;   (* ansible.AddLocalConfigPathToFiles *)
  Infra_Run : run_outcome;                    (* e.Infra.Run *)
  update_terminal : answer                    (* the deferred UPDATE *)
}.

(** How control leaves the body of a function. *)
Inductive control : Type :=
| Return
| Panic (v : string).

(** How a call of [Execute] ends for its caller. *)
Inductive exit : Type :=
| Returned (err : option error)
| Panicked (v : string).

Definition nil_map_panic : string := "assignment to entry in nil map".

(** The body of [Execute], lines 187-218: how control leaves it, the
    value of the named result [err] at that point, the receiver and the
    store. A [return x] statement stores [x] in [err] before the
    deferred function runs; a panic leaves [err] as it was. *)
Definition Execute_body (env : ExecuteEnv) (e : Exec) (db : DB)
  : control * option error * Exec * DB :=
  if negb (prepared e) then (Return, Some ErrorNotPrepared, e, db)
  else
    match Insert (clientDB e) (update_started env)
            (UpdateStarted StatusStarted (UUID e)) db with
    | (db, Some err) => (Return, Some err, e, db)
    | (db, None) =>
        match provision env with
        | Err err => (Return, Some err, e, db)
        | Ok IPs =>
            match AddIPsToFiles env with
            | Some err => (Return, Some err, e, db)
            | None =>
                match AddLocalConfigPathToFiles env with
                | Some err => (Return, Some err, e, db)
                | None =>
                    match ExtraVars e with
                    | None => (Panic nil_map_panic, None, e, db)
                    | Some vars =>
                        let vars := <[keyExecUUID := UUID e]> vars in
                        let vars := <[keyVitessVersion := GitRef e]> vars in
                        let vars := <[keyExecSource := Source e]> vars in
                        let e := set_ExtraVars (Some vars) e in
                        match Infra_Run env with
                        | RunPanic v => (Panic v, None, e, db)
                        | RunErr err => (Return, Some err, e, db)
                        | RunNil => (Return, None, e, db)
                        end
                    end
                end
            end
        end
    end.

(** The deferred function of [Execute], lines 179-185. Both results of
    the [Insert] are discarded. *)
Definition Execute_deferred (env : ExecuteEnv) (err : option error)
    (e : Exec) (db : DB) : DB :=
  let status := match err with
                | None => StatusFinished
                | Some _ => StatusFailed
                end in
  fst (Insert (clientDB e) (update_terminal env)
         (UpdateFinished status (UUID e)) db).

(** [func (e *Exec) Execute() (err error)], lines 178-219. *)
Definition Execute (env : ExecuteEnv) (e : Exec) (db : DB)
  : exit * Exec * DB :=
  let '(c, err, e, db) := Execute_body env e db in
  let db := Execute_deferred env err e db in
  (match c with
   | Return => Returned err
   | Panic v => Panicked v
   end, e, db).

(** [func Exists(clientDB, gitRef, source, typeOf, status) (bool, error)],
    lines 388-395; [fault] is the outcome of the select. *)
Definition Exists (clientDB : option Client) (fault : option error) (db : DB)
    (gitRef source typeOf status : string) : bool * option error :=
  match Select clientDB fault (select_exists status gitRef typeOf source) db with
  | Err err => (false, Some err)
  | Ok result => (Next result, None)
  end.

End exec.

(** ** Package [server]: the execution queue and its goroutines *)
Module server.
Import mysql.

(** [executionIdentifier], the key of the queue. Its declaration is
    in a file of the package not available here; the fields are the ones
    the functions below read. *)
Record executionIdentifier : Type := {
  GitRef : string;
  Source : string;
  BenchmarkType : string;
  PlannerVersion : string;
  PullNb : Z
}.

#[global] Instance executionIdentifier_eq_dec : EqDecision executionIdentifier.
Proof. solve_decision. Defined.

#[global] Instance executionIdentifier_countable : Countable executionIdentifier.
Proof.
  refine (inj_countable'
            (λ i, (GitRef i, Source i, BenchmarkType i, PlannerVersion i, PullNb i))
            (λ t, let '(g, s, b, p, n) := t in
                  {| GitRef := g; Source := s; BenchmarkType := b;
                     PlannerVersion := p; PullNb := n |}) _).
  by intros [].
Defined.

(** [executionQueueElement]; the queue holds pointers to these. *)
Record executionQueueElement : Type := {
  config : string;
  retry : Z;
  identifier : executionIdentifier;
  compareWith : list executionIdentifier;
  executing : bool;
  notifyAlways : bool
}.

#[global] Instance executionQueueElement_eq_dec : EqDecision executionQueueElement.
Proof. solve_decision. Defined.

Definition set_retry (n : Z) (e : executionQueueElement) : executionQueueElement :=
  {| config := config e; retry := n; identifier := identifier e;
     compareWith := compareWith e; executing := executing e;
     notifyAlways := notifyAlways e |}.

Definition set_executing (b : bool) (e : executionQueueElement) : executionQueueElement :=
  {| config := config e; retry := retry e; identifier := identifier e;
     compareWith := compareWith e; executing := b;
     notifyAlways := notifyAlways e |}.

(** The package-level state shared by the goroutines: the elements on
    the Go heap (by address), [queue] (identifier to pointer) and
    [currentCountExec]. The queue and the counter are written only with
    [mtx] held. An address without an element stands for a nil pointer,
    which the queue never holds; the functions below skip it. *)
Record Sched : Type := {
  heap : gmap nat executionQueueElement;
  queue : gmap executionIdentifier nat;
  currentCountExec : Z
}.

Definition set_heap (h : gmap nat executionQueueElement) (s : Sched) : Sched :=
  {| heap := h; queue := queue s; currentCountExec := currentCountExec s |}.

Definition set_queue (q : gmap executionIdentifier nat) (s : Sched) : Sched :=
  {| heap := heap s; queue := q; currentCountExec := currentCountExec s |}.

Definition set_currentCountExec (n : Z) (s : Sched) : Sched :=
  {| heap := heap s; queue := queue s; currentCountExec := n |}.

(** [func decrementNumberOfOnGoingExecution()], lines 580-584. *)
Definition decrementNumberOfOnGoingExecution (s : Sched) : Sched :=
  set_currentCountExec (currentCountExec s - 1) s.

(** What the goroutine of one element does that others can see. *)
Inductive Event : Type :=
| EvExecuteSingle (config : string) (identifier : executionIdentifier)
| EvDelete (identifier : executionIdentifier)
| EvDecrement
| EvGoCompare (element : nat).

#[global] Instance Event_eq_dec : EqDecision Event.
Proof. solve_decision. Defined.

Definition is_attempt (ev : Event) : bool :=
  match ev with
  | EvExecuteSingle _ _ => true
  | _ => false
  end.

Definition is_compare (ev : Event) : bool :=
  match ev with
  | EvGoCompare _ => true
  | _ => false
  end.

Definition is_decrement (ev : Event) : bool :=
  match ev with
  | EvDecrement => true
  | _ => false
  end.

(** The arguments of one call of [s.sendNotificationForRegression],
    in the order of lines 512-521. *)
Record regressionCall : Type := {
  rc_source : string;
  rc_comparerSource : string;
  rc_gitRef : string;
  rc_comparerGitRef : string;
  rc_plannerVersion : string;
  rc_benchmarkType : string;
  rc_pullNb : Z;
  rc_notifyAlways : bool
}.

#[global] Instance regressionCall_eq_dec : EqDecision regressionCall.
Proof. solve_decision. Defined.

Definition regressionCall_of (element : executionQueueElement)
    (comparer : executionIdentifier) : regressionCall :=
  {| rc_source := Source (identifier element);
     rc_comparerSource := Source comparer;
     rc_gitRef := GitRef (identifier element);
     rc_comparerGitRef := GitRef comparer;
     rc_plannerVersion := PlannerVersion (identifier element);
     rc_benchmarkType := BenchmarkType (identifier element);
     rc_pullNb := PullNb (identifier element);
     rc_notifyAlways := notifyAlways element |}.

(** A run of the store that is Finished and agrees with an identifier
    on all five of its fields. *)
Definition matches_finished (i : executionIdentifier) (r : Row) : Prop :=
  status r = exec.StatusFinished ∧ git_ref r = GitRef i ∧ source r = Source i
  ∧ type_ r = BenchmarkType i ∧ planner_version r = PlannerVersion i
  ∧ pull_nb r = PullNb i.

#[global] Instance matches_finished_dec i r : Decision (matches_finished i r).
Proof. unfold matches_finished. apply _. Defined.

(** Modelled from the spec: [exec.GetFinishedExecution] is declared in
    a file not available here.
    The spec's predicate is "Finished run matching
    gitRef+source+type+plannerVersion+pullRequestNumber"; the result is
    the identifier of such a run, or the empty string when there is none. *)
Definition GetFinishedExecution (c : option Client) (fault : option error)
    (db : DB) (gitRef source benchmarkType plannerVersion : string) (pullNb : Z)
  : string * option error :=
  let wanted := {| GitRef := gitRef; Source := source;
                   BenchmarkType := benchmarkType;
                   PlannerVersion := plannerVersion; PullNb := pullNb |} in
  match Select c fault (λ t, uuid <$> filter (matches_finished wanted) t) db with
  | Err err => ("", Some err)
  | Ok result => (default "" (head result), None)
  end.

(** What the outside world shows to one comparator: the store as it is
    during each poll tick, and the outcome of each select and of each
    notification call. *)
Record CompareEnv : Type := {
  db_at : nat → DB;
  select_fault : nat → executionIdentifier → option error;
  notify_fault : nat → executionIdentifier → option error
}.

(** How far a comparator got. *)
Inductive compare_end : Type :=
| Completed          (* the loop condition became false *)
| Aborted (e : error) (* one of the two [return]s of the body *)
| StillPolling.      (* the loop is still running after the given ticks *)

Section with_server.

(** The [*mysql.Client] of the [Server] receiver. *)
Variable dbClient : option Client.

(** [maxConcurJob] is declared in a file not available here: a
    parameter. *)
Variable maxConcurJob : Z.

(** [exec.ExistsMacrobenchmark] is declared in a file not available
    here: a parameter,
    called with the outcome of its select, the store and its six
    arguments. *)
Variable ExistsMacrobenchmark :
  option Client → option error → DB →
  string → string → string → string → string → bool * option error.

(** The slice [checkStatus] of lines 533-538. *)
Definition checkStatus : list (string * bool) :=
  [(exec.StatusFinished, false)].

(** The loop of lines 539-554 over the remaining entries of
    [checkStatus]; [fault] is the outcome of the select made for a
    status. *)
Fixpoint checkIfExecutionExists_range (fault : string → option error) (db : DB)
    (identifier : executionIdentifier) (l : list (string * bool))
  : bool * option error :=
  match l with
  | [] => (false, None)
  | status :: l =>
      let '(exists_, err) :=
        if decide (BenchmarkType identifier = "micro")
        then exec.Exists dbClient (fault status.1) db
               (GitRef identifier) (Source identifier)
               (BenchmarkType identifier) status.1
        else ExistsMacrobenchmark dbClient (fault status.1) db
               (GitRef identifier) (Source identifier)
               (BenchmarkType identifier) status.1
               (PlannerVersion identifier) in
      match err with
      | Some err => (false, Some err)
      | None =>
          if exists_ then (true, None)
          else checkIfExecutionExists_range fault db identifier l
      end
  end.

(** [func (s *Server) checkIfExecutionExists(identifier) (bool, error)],
    lines 532-556. *)
Definition checkIfExecutionExists (fault : string → option error) (db : DB)
    (identifier : executionIdentifier) : bool * option error :=
  checkIfExecutionExists_range fault db identifier checkStatus.

(** The inner loop of [compareElement], lines 505-528, over the
    remaining comparers of poll tick [tick]. The result is the error
    that made the function return, if any, the counter [done] and the
    calls of [sendNotificationForRegression] made so far. *)
Fixpoint compareElement_range (env : CompareEnv) (tick : nat)
    (element : executionQueueElement) (cs : list executionIdentifier)
    (done_ : Z) (sent : list regressionCall)
  : option error * Z * list regressionCall :=
  match cs with
  | [] => (None, done_, sent)
  | comparer :: cs =>
      match GetFinishedExecution dbClient (select_fault env tick comparer)
              (db_at env tick) (GitRef comparer) (Source comparer)
              (BenchmarkType comparer) (PlannerVersion comparer)
              (PullNb comparer) with
      | (_, Some err) => (Some err, done_, sent)
      | (comparerUUID, None) =>
          if decide (comparerUUID ≠ "") then
            let sent := sent ++ [regressionCall_of element comparer] in
            match notify_fault env tick comparer with
            | Some err => (Some err, done_, sent)
            | None =>
                compareElement_range env tick element cs (done_ + 1) sent
            end
          else compareElement_range env tick element cs done_ sent
      end
  end.

(** The outer loop of [compareElement], lines 503-529, run for at most
    [ticks] iterations starting with poll tick [tick]. *)
Fixpoint compareElement_loop (env : CompareEnv) (ticks : nat) (tick : nat)
    (element : executionQueueElement) (done_ : Z) (sent : list regressionCall)
  : compare_end * list regressionCall :=
  if decide (done_ ≠ Z.of_nat (length (compareWith element))) then
    match ticks with
    | O => (StillPolling, sent)
    | S ticks =>
        match compareElement_range env tick element (compareWith element)
                done_ sent with
        | (Some err, _, sent) => (Aborted err, sent)
        | (None, done_, sent) =>
            compareElement_loop env ticks (S tick) element done_ sent
        end
    end
  else (Completed, sent).

(** [func (s *Server) compareElement(element)], lines 501-530, observed
    for at most [ticks] poll ticks. *)
Definition compareElement (env : CompareEnv) (ticks : nat)
    (element : executionQueueElement) : compare_end * list regressionCall :=
  compareElement_loop env ticks 0 element 0 [].

(** The [range queue] loop of lines 566-575 over the elements not yet
    visited, in the order [order] in which the map yields them. The
    result names the element handed to a new goroutine, if any. *)
Fixpoint cronExecutionQueueWatcher_range (order : list nat) (s : Sched)
  : Sched * option nat :=
  match order with
  | [] => (s, None)
  | p :: order =>
      match heap s !! p with
      | None => cronExecutionQueueWatcher_range order s
      | Some element =>
          if negb (executing element) then
            let s := set_currentCountExec (currentCountExec s + 1) s in
            let s := set_heap (<[p := set_executing true element]> (heap s)) s in
            (s, Some p)
          else cronExecutionQueueWatcher_range order s
      end
  end.

(** One iteration of the loop of [cronExecutionQueueWatcher], lines
    560-576, between [mtx.Lock()] and [mtx.Unlock()]. *)
Definition cronExecutionQueueWatcher_tick (order : list nat) (s : Sched)
  : Sched * option nat :=
  if currentCountExec s >=? maxConcurJob then (s, None)
  else cronExecutionQueueWatcher_range order s.

(** The retries an element still has, as a termination measure. *)
Definition budget (s : Sched) (p : nat) : nat :=
  match heap s !! p with
  | None => O
  | Some element => Z.to_nat (retry element + 1)
  end.

Section with_executeSingle.

(** [executeSingle] (lines 423-464) seen from the queue: whether the
    attempt made after the events [tr] returns an error. *)
Variable executeSingle :
  list Event → string → executionIdentifier → option error.

(** [func (s *Server) executeElement(element)], lines 466-499, run
    by its goroutine with no other goroutine interleaved: the shared
    state and the events after the call. *)
Equations? executeElement (s : Sched) (tr : list Event) (p : nat)
  : Sched * list Event by wf (budget s p) lt :=
executeElement s tr p with inspect (heap s !! p) := {
  | exist _ None _ => (s, tr)
  | exist _ (Some element) Hp with inspect (bool_decide (retry element < 0)) := {
    | exist _ true _ =>
        match queue s !! identifier element with
        | Some _ =>
            (decrementNumberOfOnGoingExecution
               (set_queue (delete (identifier element) (queue s)) s),
             tr ++ [EvDelete (identifier element); EvDecrement])
        | None =>
            (decrementNumberOfOnGoingExecution s, tr ++ [EvDecrement])
        end
    | exist _ false Hr
        with inspect (executeSingle tr (config element) (identifier element)) := {
      | exist _ (Some err) _ =>
          executeElement
            (set_heap (<[p := set_retry (retry element - 1) element]> (heap s)) s)
            (tr ++ [EvExecuteSingle (config element) (identifier element)])
            p
      | exist _ None _ =>
          (decrementNumberOfOnGoingExecution s,
           tr ++ [EvExecuteSingle (config element) (identifier element);
                  EvGoCompare p; EvDecrement])
      }
    }
  }.
Proof.
  unfold budget. cbn. rewrite Hp, lookup_insert_eq. cbn.
  apply bool_decide_eq_false in Hr. lia.
Qed.

End with_executeSingle.

(** *** The goroutines of the queue, interleaved

    Each critical section of the source (a region between [mtx.Lock()]
    and [mtx.Unlock()]) is one atomic step; [executeSingle] runs outside
    the mutex and only its result is visible. *)

Inductive goroutine : Type :=
| GoExecuteElement (element : nat)  (* at the entry of executeElement, line 467 *)
| GoDecrement                       (* before decrementNumberOfOnGoingExecution, lines 474 and 498 *)
| GoCompare (element : nat).        (* the anonymous function of lines 489-496 *)

#[global] Instance goroutine_eq_dec : EqDecision goroutine.
Proof. solve_decision. Defined.

(** Whether a goroutine still holds one unit of [currentCountExec]. *)
Definition holds_slot (g : goroutine) : bool :=
  match g with
  | GoExecuteElement _ | GoDecrement => true
  | GoCompare _ => false
  end.

Record System : Type := {
  sched : Sched;
  pool : list goroutine
}.

(** Modelled from the spec: the function that puts a submission in the
    queue is declared in a file not available here. The spec's [Submit] rejects an identifier that
    is already queued; an accepted element is a fresh object, stored under
    its identifier with [executing = false]. *)
Definition enqueue (p : nat) (element : executionQueueElement) (s : Sched) : Sched :=
  set_queue (<[identifier element := p]> (queue s))
    (set_heap (<[p := set_executing false element]> (heap s)) s).

Definition spawned_by_tick (o : option nat) : list goroutine :=
  match o with
  | Some p => [GoExecuteElement p]
  | None => []
  end.

Inductive step : System → System → Prop :=
| step_tick σ order s' spawned :
    (* one iteration of cronExecutionQueueWatcher *)
    order ≡ₚ (map_to_list (queue (sched σ))).*2 →
    cronExecutionQueueWatcher_tick order (sched σ) = (s', spawned) →
    step σ {| sched := s'; pool := pool σ ++ spawned_by_tick spawned |}
| step_exhausted σ gs1 gs2 p element :
    (* lines 467-473: the budget is spent, the element leaves the queue *)
    pool σ = gs1 ++ GoExecuteElement p :: gs2 →
    heap (sched σ) !! p = Some element →
    retry element < 0 →
    step σ {| sched := set_queue (delete (identifier element) (queue (sched σ))) (sched σ);
              pool := gs1 ++ GoDecrement :: gs2 |}
| step_failed σ gs1 gs2 p element :
    (* lines 479-486: executeSingle returned an error *)
    pool σ = gs1 ++ GoExecuteElement p :: gs2 →
    heap (sched σ) !! p = Some element →
    ¬ retry element < 0 →
    step σ {| sched := set_heap (<[p := set_retry (retry element - 1) element]>
                                   (heap (sched σ))) (sched σ);
              pool := gs1 ++ GoExecuteElement p :: gs2 |}
| step_succeeded σ gs1 gs2 p element :
    (* lines 479-496: executeSingle returned nil, the comparator is started *)
    pool σ = gs1 ++ GoExecuteElement p :: gs2 →
    heap (sched σ) !! p = Some element →
    ¬ retry element < 0 →
    step σ {| sched := sched σ;
              pool := gs1 ++ GoDecrement :: gs2 ++ [GoCompare p] |}
| step_decrement σ gs1 gs2 :
    (* lines 474 and 498 *)
    pool σ = gs1 ++ GoDecrement :: gs2 →
    step σ {| sched := decrementNumberOfOnGoingExecution (sched σ);
              pool := gs1 ++ gs2 |}
| step_compared σ gs1 gs2 p element :
    (* lines 490-495: compareElement returned, the element leaves the queue *)
    pool σ = gs1 ++ GoCompare p :: gs2 →
    heap (sched σ) !! p = Some element →
    step σ {| sched := set_queue (delete (identifier element) (queue (sched σ))) (sched σ);
              pool := gs1 ++ gs2 |}
| step_submit σ p element :
    queue (sched σ) !! identifier element = None →
    heap (sched σ) !! p = None →
    step σ {| sched := enqueue p element (sched σ); pool := pool σ |}.

(** The state of a server that has just started. *)
Definition initial : System :=
  {| sched := {| heap := ∅; queue := ∅; currentCountExec := 0 |}; pool := [] |}.

Definition reachable (σ : System) : Prop := rtc step initial σ.

End with_server.

End server.


(** ** Package [exec], continued: prior runs and regression notifications *)
Module notification.
Import mysql exec.

(** Modelled from the spec: [Client.Select] (go/storage/mysql, a file not
    available here) for the queries whose cursor is not a list of UUIDs;
    it fails and succeeds as [Select] does. *)
Definition SelectRows {A : Type} (c : option Client) (fault : option error)
    (q : list Row → list A) (db : DB) : result (list A) :=
  match c, fault with
  | None, _ => Err ErrorClientConnectionNotInitialized
  | Some _, Some e => Err e
  | Some _, None => Ok (q (rows db))
  end.

(** The order of [started_at] under ORDER BY ... DESC: [a] sorts after
    [b]. MySQL puts NULL after every value in a descending order. *)
Definition started_before (a b : option Z) : bool :=
  match a, b with
  | None, Some _ => true
  | Some x, Some y => x <? y
  | _, None => false
  end.

(** ORDER BY started_at DESC LIMIT 1. SQL leaves the order of rows with
    equal keys open; among the rows that started last the one that comes
    first in the table is taken. *)
Fixpoint latest_started (t : list Row) : option Row :=
  match t with
  | [] => None
  | r :: t =>
      match latest_started t with
      | Some r' =>
          if started_before (started_at r) (started_at r') then Some r' else Some r
      | None => Some r
      end
  end.

(** WHERE e.source = ? AND e.status = 'finished' AND e.type = ?
    AND e.git_ref != ? *)
Definition is_previous (src ty ref : string) (r : Row) : Prop :=
  source r = src ∧ status r = "finished" ∧ type_ r = ty ∧ git_ref r ≠ ref.

#[global] Instance is_previous_dec src ty ref r : Decision (is_previous src ty ref r).
Proof. unfold is_previous. apply _. Defined.

(** SELECT e.uuid, e.git_ref FROM execution e WHERE ...
    ORDER BY e.started_at DESC LIMIT 1 *)
Definition select_previous (src ty ref : string) (t : list Row)
  : list (string * string) :=
  option_list ((λ r, (uuid r, git_ref r))
                 <$> latest_started (filter (is_previous src ty ref) t)).

(** [func (e Exec) getPreviousFromSameSource() (execUUID, gitRef string, err error)],
    lines 356-370; the loop keeps the values of the last row scanned. The
    two columns are strings of the row, so [Scan] has nothing to reject. *)
Definition getPreviousFromSameSource (fault : option error) (e : Exec) (db : DB)
  : string * string * option error :=
  match SelectRows (clientDB e) fault
          (select_previous (Source e) (typeOf e) (GitRef e)) db with
  | Err err => ("", "", Some err)
  | Ok result =>
      let '(execUUID, gitRef) := foldl (λ _ row, row) ("", "") result in
      (execUUID, gitRef, None)
  end.

(** where source = "cron" and status = "finished" *)
Definition is_finished_cron (r : Row) : Prop :=
  source r = "cron" ∧ status r = "finished".

#[global] Instance is_finished_cron_dec r : Decision (is_finished_cron r).
Proof. unfold is_finished_cron. apply _. Defined.

(** select git_ref from execution where source = "cron" and
    status = "finished" order by started_at desc limit 1 *)
Definition select_latest_cron (t : list Row) : list string :=
  option_list (git_ref <$> latest_started (filter is_finished_cron t)).

(** [func GetLatestCronJobForMicrobenchmarks(client) (gitSha string, err error)],
    lines 374-386: the first row of the cursor, if there is one. *)
Definition GetLatestCronJobForMicrobenchmarks (client : option Client)
    (fault : option error) (db : DB) : string * option error :=
  match SelectRows client fault select_latest_cron db with
  | Err err => ("", Some err)
  | Ok [] => ("", None)
  | Ok (gitSha :: _) => (gitSha, None)
  end.

(** What the outside world answers to the calls of one
    [SendNotificationForRegression]. The comparisons are kept as the
    text that their [Regression()] method gives: for micro benchmarks one
    text, for macro benchmarks the texts of the [ComparisonArray] stored
    under each benchmark type. *)
Record NotifyEnv : Type := {
  previous_fault : option error;                         (* the select of the prior run *)
  CompareMicroBenchmarks : string → string → result string;
  influx_NewClient : option error;                       (* influxCfg.NewClient() *)
  CompareMacroBenchmarks : string → string → result (gmap string (list string));
  slack_Send : string → option error                     (* msg.Send(e.slackConfig) *)
}.

Definition newline : string := String (Ascii.ascii_of_nat 10) "".

(** Go's [s[:n]]: the first [n] bytes; out of range it panics ([None]). *)
Definition slice_to (n : nat) (s : string) : option string :=
  if decide (n ≤ String.length s)%nat then Some (String.substring 0 n s) else None.

Definition slice_panic : string := "slice bounds out of range".
Definition conversion_panic : string :=
  "interface conversion: interface {} is nil, not macrobench.ComparisonArray".

(** The header of lines 230-235, from the first seven bytes of the two
    UUIDs. *)
Definition regression_header (e : Exec) (previousGitRef uuid7 previous7 : string)
  : string :=
  "*Observed a regression.*" +:+ newline
  +:+ "Comparing: recent commit <https://github.com/vitessio/vitess/commit/"
  +:+ GitRef e +:+ "|" +:+ ShortenSHA (GitRef e)
  +:+ "> with old commit <https://github.com/vitessio/vitess/commit/"
  +:+ previousGitRef +:+ "|" +:+ ShortenSHA previousGitRef +:+ ">." +:+ newline
  +:+ "Benchmark UUIDs, recent: " +:+ uuid7 +:+ " old: " +:+ previous7 +:+ "."
  +:+ newline +:+ newline +:+ newline.

(** [func (e Exec) sendSlackMessage(regression, header string) error],
    lines 283-291: the error returned and the content handed to Slack. *)
Definition sendSlackMessage (env : NotifyEnv) (regression header : string)
  : exit * list string :=
  let content := header +:+ regression in
  (Returned (slack_Send env content), [content]).

(** [func (e Exec) SendNotificationForRegression() error], lines 221-281:
    how the call ends and the contents handed to Slack. The text of a
    UUID has 36 bytes, so for an [Exec] of the program the first slice
    cannot panic; the UUID of the prior run comes from the store. *)
Definition SendNotificationForRegression (env : NotifyEnv) (e : Exec) (db : DB)
  : exit * list string :=
  match getPreviousFromSameSource (previous_fault env) e db with
  | (_, _, Some err) => (Returned (Some err), [])
  | (previousExec, previousGitRef, None) =>
      if decide (previousExec = "") then (Returned None, [])
      else
        match slice_to 7 (UUID e), slice_to 7 previousExec with
        | Some uuid7, Some previous7 =>
            let header := regression_header e previousGitRef uuid7 previous7 in
            if decide (typeOf e = "micro") then
              match CompareMicroBenchmarks env (GitRef e) previousGitRef with
              | Err err => (Returned (Some err), [])
              | Ok regression =>
                  if decide (regression ≠ "")
                  then sendSlackMessage env regression header
                  else (Returned None, [])
              end
            else if decide (typeOf e = "oltp" ∨ typeOf e = "tpcc") then
              match influx_NewClient env with
              | Some err => (Returned (Some err), [])
              | None =>
                  match CompareMacroBenchmarks env (GitRef e) previousGitRef with
                  | Err err => (Returned (Some err), [])
                  | Ok macrosMatrices =>
                      match macrosMatrices !! typeOf e with
                      | None => (Panicked conversion_panic, [])
                      | Some [] => (Returned (Some "no macrobenchmark result"), [])
                      | Some (regression :: _) =>
                          if decide (regression ≠ "")
                          then sendSlackMessage env regression header
                          else (Returned None, [])
                      end
                  end
              end
            else (Returned None, [])
        | _, _ => (Panicked slice_panic, [])
        end
  end.

End notification.

(** ** The local clone of vitess (package [server]) *)
Module vitess.

(** An [os.FileInfo] as far as [setupLocalVitess] looks at it. *)
Record FileInfo : Type := {
  Name : string;
  IsDir : bool
}.

(** One call of [git.ExecCmd]: the directory and the command line. *)
Record Cmd : Type := {
  cmd_dir : string;
  cmd_line : list string
}.

#[global] Instance Cmd_eq_dec : EqDecision Cmd.
Proof. solve_decision. Defined.

(** What the outside world answers: the listing of a directory and the
    outcome of a command. *)
Record VitessEnv : Type := {
  ReadDir : string → result (list FileInfo);   (* ioutil.ReadDir *)
  ExecCmd : Cmd → option error                 (* the error of git.ExecCmd *)
}.

Section with_path.

(** [path.Join] of the Go library: a parameter. *)
Variable path_Join : string → string → string.




(** [func (s *Server) getVitessPath() string], lines 46-48. *)
Definition getVitessPath (localVitessPath : string) : string :=
  path_Join localVitessPath "vitess".

Definition fetch_cmd (localVitessPath : string) : Cmd :=
  {| cmd_dir := getVitessPath localVitessPath;
     cmd_line := ["git"; "fetch"; "origin"; "--tags"] |}.

Definition reset_cmd (localVitessPath : string) : Cmd :=
  {| cmd_dir := getVitessPath localVitessPath;
     cmd_line := ["git"; "reset"; "--hard"; "origin/main"] |}.

(** [func (s *Server) pullLocalVitess() error], lines 51-58. *)
Definition pullLocalVitess (env : VitessEnv) (localVitessPath : string)
  : option error * list Cmd :=
  match ExecCmd env (fetch_cmd localVitessPath) with
  | Some err => (Some err, [fetch_cmd localVitessPath])
  | None =>
      (ExecCmd env (reset_cmd localVitessPath),
       [fetch_cmd localVitessPath; reset_cmd localVitessPath])
  end.

End with_path.

End vitess.

(** ** One attempt of a run: [SetOutputToDefaultPath] and [executeSingle] *)
Module single.
Import mysql exec.

Definition stderrFile : string := "exec-stderr.log".
Definition stdoutFile : string := "exec-stdout.log".

(** The output streams of an [Exec] ([stdout], [stderr]) and of its
    [AnsibleConfig], each named by the file it writes to. They are kept
    beside the record of the other fields. *)
Record Outputs : Type := {
  stdout : string;
  stderr : string;
  ansible_stdout : string;
  ansible_stderr : string
}.

(** [func (e *Exec) SetStdout(stdout *os.File)], lines 103-106. *)
Definition SetStdout (f : string) (o : Outputs) : Outputs :=
  {| stdout := f; stderr := stderr o;
     ansible_stdout := f; ansible_stderr := ansible_stderr o |}.

(** [func (e *Exec) SetStderr(stderr *os.File)], lines 109-112. *)
Definition SetStderr (f : string) (o : Outputs) : Outputs :=
  {| stdout := stdout o; stderr := f;
     ansible_stdout := ansible_stdout o; ansible_stderr := f |}.

Definition set_Source (s : string) (e : Exec) : Exec :=
  {| UUID := UUID e; Source := s; GitRef := GitRef e;
     typeOf := typeOf e; configDB := configDB e; clientDB := clientDB e;
     statsRemoteDBConfig := statsRemoteDBConfig e; rootDir := rootDir e;
     dirPath := dirPath e; prepared := prepared e;
     configPath := configPath e; ExtraVars := ExtraVars e;
     InfraTags := InfraTags e |}.

Definition set_GitRef (g : string) (e : Exec) : Exec :=
  {| UUID := UUID e; Source := Source e; GitRef := g;
     typeOf := typeOf e; configDB := configDB e; clientDB := clientDB e;
     statsRemoteDBConfig := statsRemoteDBConfig e; rootDir := rootDir e;
     dirPath := dirPath e; prepared := prepared e;
     configPath := configPath e; ExtraVars := ExtraVars e;
     InfraTags := InfraTags e |}.

(** The steps of one attempt, as [executeSingle] calls them. *)
Inductive Call : Type :=
| CallPrepare
| CallSetOutputToDefaultPath
| CallExecuteWithTimeout
| CallSuccess.

#[global] Instance Call_eq_dec : EqDecision Call.
Proof. solve_decision. Defined.

(** What the outside world, and the functions of the repository that
    are declared in files not available here ([AddToViper] inside
    [NewExecWithConfig], [ExecuteWithTimeout], [Success]), answer to one
    [executeSingle]. *)
Record SingleEnv : Type := {
  NewExecWithConfig : string → result (Exec * Outputs);
  prepare_answers : PrepareEnv;
  os_OpenFile : string → option error;   (* os.OpenFile(path, O_RDWR|O_CREATE, 0755) *)
  ExecuteWithTimeout : Exec → DB → option error * Exec * DB;
  Success : Exec → option error
}.

Section with_library.

(** [path.Join], and [fmt.Errorf] applied to a format without
    arguments, of the Go library: parameters. *)
Variable path_Join : string → string → string.
Variable fmt_Errorf : string → error.

(** [func (e *Exec) SetOutputToDefaultPath() error], lines 116-134: the
    error, the streams and the files that exist afterwards. A file that
    is opened is created when it is missing. *)
Definition SetOutputToDefaultPath (open : string → option error) (e : Exec)
    (o : Outputs) (fs : gset string) : option error * Outputs * gset string :=
  if negb (prepared e) then (Some ErrorNotPrepared, o, fs)
  else
    let outFile := path_Join (dirPath e) stdoutFile in
    match open outFile with
    | Some err => (Some err, o, fs)
    | None =>
        let fs := {[ outFile ]} ∪ fs in
        let errFile := path_Join (dirPath e) stderrFile in
        match open errFile with
        | Some err => (Some err, o, fs)
        | None =>
            (None,
             {| stdout := outFile; stderr := errFile;
                ansible_stdout := outFile; ansible_stderr := errFile |},
             {[ errFile ]} ∪ fs)
        end
    end.

(** The body of [executeSingle], lines 438-463: the variable [e] ([None]
    while it is nil), the named result [err], the store, the files and
    the steps called. The fields [VtgatePlannerVersion] and [PullNB] that
    lines 445-446 set are not fields of the [Exec] of exec.go. *)
Definition executeSingle_body (env : SingleEnv) (config : string)
    (identifier : server.executionIdentifier) (db : DB) (fs : gset string)
  : option Exec * option error * DB * gset string * list Call :=
  match NewExecWithConfig env config with
  | Err err => (None, Some err, db, fs, [])
  | Ok (e, o) =>
      let e := set_Source (server.Source identifier) e in
      let e := set_GitRef (server.GitRef identifier) e in
      match Prepare (prepare_answers env) e db with
      | (Some err, e, db) =>
          (Some e, Some (fmt_Errorf ("prepare step error: " +:+ err)), db, fs,
           [CallPrepare])
      | (None, e, db) =>
          match SetOutputToDefaultPath (os_OpenFile env) e o fs with
          | (Some err, _, fs) =>
              (Some e, Some (fmt_Errorf ("prepare outputs step error: " +:+ err)),
               db, fs, [CallPrepare; CallSetOutputToDefaultPath])
          | (None, _, fs) =>
              match ExecuteWithTimeout env e db with
              | (Some err, e, db) =>
                  (Some e, Some (fmt_Errorf ("execution step error: " +:+ err)),
                   db, fs,
                   [CallPrepare; CallSetOutputToDefaultPath; CallExecuteWithTimeout])
              | (None, e, db) =>
                  (Some e, None, db, fs,
                   [CallPrepare; CallSetOutputToDefaultPath; CallExecuteWithTimeout])
              end
          end
      end
  end.

(** [func (s *Server) executeSingle(config, identifier) (err error)],
    lines 423-464, with its deferred function: [fmt.Errorf("%v", err)]
    keeps the message of [err]; an error of [Success] replaces it. *)
Definition executeSingle (env : SingleEnv) (config : string)
    (identifier : server.executionIdentifier) (db : DB) (fs : gset string)
  : option error * DB * gset string * list Call :=
  let '(e, err, db, fs, calls) := executeSingle_body env config identifier db fs in
  match e with
  | None => (err, db, fs, calls)
  | Some e =>
      match Success env e with
      | Some errSuccess => (Some errSuccess, db, fs, calls ++ [CallSuccess])
      | None => (err, db, fs, calls ++ [CallSuccess])
      end
  end.

End with_library.

End single.

(** ** Vocabulary of the statements *)
Module vocabulary.
Import mysql exec.

(** The two statuses that end a run. *)
Definition terminal (st : string) : Prop :=
  st = StatusFinished ∨ st = StatusFailed.

(** The status that the deferred function of [Execute] computes from the
    named result. *)
Definition status_for (err : option error) : string :=
  match err with
  | None => StatusFinished
  | Some _ => StatusFailed
  end.

(** The record that the INSERT of [Prepare] adds for an [Exec]. *)
Definition created_row (e : Exec) : Row :=
  {| uuid := UUID e; status := StatusCreated; source := Source e;
     git_ref := GitRef e; type_ := typeOf e; planner_version := "";
     pull_nb := 0; started_at := None; finished_at := None |}.

(** The INSERT statement of [Prepare] for an [Exec]. *)
Definition insert_of (e : Exec) : Stmt :=
  InsertExecution (UUID e) StatusCreated (Source e) (GitRef e) (typeOf e).

(** The shared state after an element has been dispatched by a tick. *)
Definition dispatched (p : nat) (element : server.executionQueueElement)
    (s : server.Sched) : server.Sched :=
  {| server.heap := <[p := server.set_executing true element]> (server.heap s);
     server.queue := server.queue s;
     server.currentCountExec := server.currentCountExec s + 1 |}.

(** The shared state after an element has used up its retries. *)
Definition given_up (p : nat) (element : server.executionQueueElement)
    (s : server.Sched) : server.Sched :=
  {| server.heap := <[p := server.set_retry (-1) element]> (server.heap s);
     server.queue := delete (server.identifier element) (server.queue s);
     server.currentCountExec := server.currentCountExec s - 1 |}.

(** How many events of a kind a goroutine produced. *)
Definition count_events (f : server.Event → bool) (tr : list server.Event) : nat :=
  length (filter (λ ev, f ev = true) tr).

(** How many goroutines of a pool hold a unit of [currentCountExec]. *)
Definition slots (gs : list server.goroutine) : Z :=
  Z.of_nat (length (filter (λ g, server.holds_slot g = true) gs)).

(** The counter agrees with the goroutines in flight and respects the
    ceiling. *)
Definition counter_ok (maxConcurJob : Z) (σ : server.System) : Prop :=
  server.currentCountExec (server.sched σ) = slots (server.pool σ)
  ∧ server.currentCountExec (server.sched σ) ≤ maxConcurJob.

(** A comparer has a Finished run in the store as it is during a tick. *)
Definition matched (dbClient : option mysql.Client) (env : server.CompareEnv)
    (tick : nat) (comparer : server.executionIdentifier) : Prop :=
  (server.GetFinishedExecution dbClient (server.select_fault env tick comparer)
     (server.db_at env tick) (server.GitRef comparer) (server.Source comparer)
     (server.BenchmarkType comparer) (server.PlannerVersion comparer)
     (server.PullNb comparer)).1 ≠ "".

(** Two rows describe the same run: they agree on every column that
    identifies it. *)
Definition same_run (r r' : mysql.Row) : Prop :=
  mysql.uuid r' = mysql.uuid r ∧ mysql.source r' = mysql.source r
  ∧ mysql.git_ref r' = mysql.git_ref r ∧ mysql.type_ r' = mysql.type_ r
  ∧ mysql.planner_version r' = mysql.planner_version r
  ∧ mysql.pull_nb r' = mysql.pull_nb r.

(** A table obtained from another by rewriting, in place, rows of the run
    [u] only. *)
Definition touches_only (u : string) (t t' : list mysql.Row) : Prop :=
  length t' = length t
  ∧ ∀ i r, t !! i = Some r →
      ∃ r', t' !! i = Some r' ∧ same_run r r' ∧ (mysql.uuid r ≠ u → r' = r).

(** The record of a run that went through [Execute] with a store that
    executed both updates. *)
Definition executed_row (e : exec.Exec) (st : string) (t1 t2 : Z) : mysql.Row :=
  {| mysql.uuid := exec.UUID e; mysql.status := st; mysql.source := exec.Source e;
     mysql.git_ref := exec.GitRef e; mysql.type_ := exec.typeOf e;
     mysql.planner_version := ""; mysql.pull_nb := 0;
     mysql.started_at := Some t1; mysql.finished_at := Some t2 |}.

(** The status that [Execute] leaves, read off the way the call ended. *)
Definition status_of_exit (x : exec.exit) : string :=
  match x with
  | exec.Returned (Some _) => exec.StatusFailed
  | _ => exec.StatusFinished
  end.

(** The elements that goroutines of a pool are executing. *)
Definition running (gs : list server.goroutine) : list nat :=
  omap (λ g, match g with
             | server.GoExecuteElement p => Some p
             | _ => None
             end) gs.

(** No element is executed by two goroutines, and every element that is
    being executed has its [executing] flag set. *)
Definition exclusive (σ : server.System) : Prop :=
  NoDup (running (server.pool σ))
  ∧ ∀ p, p ∈ running (server.pool σ) →
      ∃ element, server.heap (server.sched σ) !! p = Some element
                 ∧ server.executing element = true.

(** A comparer has no Finished run in the store during a tick, and the
    select that finds this out succeeds. *)
Definition unmatched (dbClient : option mysql.Client) (env : server.CompareEnv)
    (tick : nat) (comparer : server.executionIdentifier) : Prop :=
  server.GetFinishedExecution dbClient (server.select_fault env tick comparer)
    (server.db_at env tick) (server.GitRef comparer) (server.Source comparer)
    (server.BenchmarkType comparer) (server.PlannerVersion comparer)
    (server.PullNb comparer) = ("", None).

End vocabulary.

(** ** Sample inputs *)
Module samples.
Import mysql exec.

Definition client0 : Client := {| cfg := "benchmark@tcp(db:3306)/arewefastyet" |}.

(** An [Exec] as [Prepare] leaves it. *)
Definition prepared_exec : Exec :=
  {| UUID := "6f1c2a9e-0001"; Source := "pr"; GitRef := "abc123"; typeOf := "micro";
     configDB := cfg client0; clientDB := Some client0;
     statsRemoteDBConfig := ∅; rootDir := "/exec"; dirPath := "/exec/6f1c2a9e-0001";
     prepared := true; configPath := "/config.yaml"; ExtraVars := Some ∅;
     InfraTags := {[ "execution_git_ref" := "abc123"; "execution_source" := "pr" ]} |}.

(** An [Exec] as [NewExec] leaves it. *)
Definition fresh_exec : Exec :=
  {| UUID := "6f1c2a9e-0001"; Source := "pr"; GitRef := "abc123"; typeOf := "micro";
     configDB := cfg client0; clientDB := None;
     statsRemoteDBConfig := ∅; rootDir := "/exec"; dirPath := "";
     prepared := false; configPath := "/config.yaml"; ExtraVars := None;
     InfraTags := ∅ |}.

Definition row_of (u st : string) : Row :=
  {| uuid := u; status := st; source := "pr"; git_ref := "abc123";
     type_ := "micro"; planner_version := ""; pull_nb := 0;
     started_at := None; finished_at := None |}.

(** The store right after the [Prepare] of [prepared_exec]. *)
Definition created_db : DB :=
  {| rows := [row_of "6f1c2a9e-0001" StatusCreated];
     journal := [(InsertExecution "6f1c2a9e-0001" StatusCreated "pr" "abc123" "micro", true)] |}.

Definition empty_db : DB := {| rows := []; journal := [] |}.

(** Provisioning fails, and the store is gone when the deferred update
    is sent. *)
Definition store_lost : ExecuteEnv :=
  {| update_started := Done 100;
     provision := Err "no device available";
     AddIPsToFiles := None;
     AddLocalConfigPathToFiles := None;
     Infra_Run := RunNil;
     update_terminal := Refused "invalid connection" |}.

(** Every step succeeds. *)
Definition all_fine : ExecuteEnv :=
  {| update_started := Done 100;
     provision := Ok ["10.0.0.1"];
     AddIPsToFiles := None;
     AddLocalConfigPathToFiles := None;
     Infra_Run := RunNil;
     update_terminal := Done 200 |}.

(** Every step of [Prepare] succeeds. *)
Definition all_prepared : PrepareEnv :=
  {| mysql_New := Ok client0;
     insert_created := Done 50;
     prepareDirectories := Ok "/exec/6f1c2a9e-0001";
     Infra_Prepare := None;
     viper_ConfigFileUsed := "/config.yaml" |}.

(** The directory of the run cannot be created. *)
Definition mkdir_fails : PrepareEnv :=
  {| mysql_New := Ok client0;
     insert_created := Done 50;
     prepareDirectories := Err "mkdir /exec: permission denied";
     Infra_Prepare := None;
     viper_ConfigFileUsed := "/config.yaml" |}.

(** A pull-request submission, and a store that holds a Finished micro
    run of the same commit and source made for another pull request. *)
Definition pr42 : server.executionIdentifier :=
  {| server.GitRef := "abc123"; server.Source := "pr";
     server.BenchmarkType := "micro"; server.PlannerVersion := "Gen4";
     server.PullNb := 42 |}.

Definition pr41_finished_db : DB :=
  {| rows := [ {| uuid := "9d0e77b1-0002"; status := StatusFinished; source := "pr";
                  git_ref := "abc123"; type_ := "micro"; planner_version := "Gen4";
                  pull_nb := 41; started_at := Some 10; finished_at := Some 20 |} ];
     journal := [] |}.

(** A stand-in for [ExistsMacrobenchmark] where a closed term needs one. *)
Definition no_macrobenchmark (_ : option Client) (_ : option error) (_ : DB)
    (_ _ _ _ _ : string) : bool * option error := (false, None).

(** The scenario of the spec: identifier A with a retry budget of 2,
    dispatched, and every attempt fails. *)
Definition A : server.executionIdentifier :=
  {| server.GitRef := "abc123"; server.Source := "pr";
     server.BenchmarkType := "micro"; server.PlannerVersion := "";
     server.PullNb := 0 |}.

Definition element_A : server.executionQueueElement :=
  {| server.config := "/config.yaml"; server.retry := 2; server.identifier := A;
     server.compareWith := []; server.executing := true;
     server.notifyAlways := false |}.

Definition A_dispatched : server.Sched :=
  {| server.heap := {[ 0%nat := element_A ]};
     server.queue := {[ A := 0%nat ]};
     server.currentCountExec := 1 |}.

Definition always_fails (_ : list server.Event) (_ : string)
    (_ : server.executionIdentifier) : option error :=
  Some "execution step error: exit status 2".

(** Comparison targets B and C, and Finished runs for identifiers. *)
Definition B : server.executionIdentifier :=
  {| server.GitRef := "def456"; server.Source := "pr";
     server.BenchmarkType := "micro"; server.PlannerVersion := "";
     server.PullNb := 0 |}.

Definition C : server.executionIdentifier :=
  {| server.GitRef := "0a1b2c"; server.Source := "pr";
     server.BenchmarkType := "micro"; server.PlannerVersion := "";
     server.PullNb := 0 |}.

Definition finished_run (u : string) (i : server.executionIdentifier) : Row :=
  {| uuid := u; status := StatusFinished; source := server.Source i;
     git_ref := server.GitRef i; type_ := server.BenchmarkType i;
     planner_version := server.PlannerVersion i; pull_nb := server.PullNb i;
     started_at := Some 10; finished_at := Some 20 |}.

Definition no_fault (_ : nat) (_ : server.executionIdentifier) : option error := None.

(** An element that has finished and is compared with A and B. *)
Definition compared_with_A_B : server.executionQueueElement :=
  {| server.config := "/config.yaml"; server.retry := 2;
     server.identifier :=
       {| server.GitRef := "fff999"; server.Source := "pr";
          server.BenchmarkType := "micro"; server.PlannerVersion := "";
          server.PullNb := 0 |};
     server.compareWith := [A; B]; server.executing := true;
     server.notifyAlways := true |}.

(** The run of A is Finished from the first poll tick on; B never runs. *)
Definition only_A_finished : server.CompareEnv :=
  {| server.db_at := λ _, {| rows := [finished_run "a0000000-0003" A]; journal := [] |};
     server.select_fault := no_fault;
     server.notify_fault := no_fault |}.

(** An element that has finished and is compared with A, B and C. *)
Definition compared_with_A_B_C : server.executionQueueElement :=
  {| server.config := "/config.yaml"; server.retry := 2;
     server.identifier :=
       {| server.GitRef := "fff999"; server.Source := "pr";
          server.BenchmarkType := "micro"; server.PlannerVersion := "";
          server.PullNb := 0 |};
     server.compareWith := [A; B; C]; server.executing := true;
     server.notifyAlways := true |}.

(** A and B are Finished during the first poll tick, C as well from the
    second tick on. *)
Definition C_finishes_later : server.CompareEnv :=
  {| server.db_at := λ tick,
       match tick with
       | O => {| rows := [finished_run "a0000000-0003" A;
                          finished_run "b0000000-0004" B]; journal := [] |}
       | S _ => {| rows := [finished_run "a0000000-0003" A;
                            finished_run "b0000000-0004" B;
                            finished_run "c0000000-0005" C]; journal := [] |}
       end;
     server.select_fault := no_fault;
     server.notify_fault := no_fault |}.

(** A server with ceiling 1 after the submission of A and one tick. *)
Definition A_submitted : server.System :=
  {| server.sched := server.enqueue 0 element_A (server.sched server.initial);
     server.pool := [] |}.

Definition A_running : server.System :=
  {| server.sched := A_dispatched;
     server.pool := [server.GoExecuteElement 0] |}.

(** The first attempt fails, every later one succeeds. *)
Definition fails_once (tr : list server.Event) (_ : string)
    (_ : server.executionIdentifier) : option error :=
  if decide (vocabulary.count_events server.is_attempt tr = O)
  then Some "execution step error: exit status 2"
  else None.

(** An element that has finished and is compared with A only. *)
Definition compared_with_A : server.executionQueueElement :=
  {| server.config := "/config.yaml"; server.retry := 2;
     server.identifier :=
       {| server.GitRef := "fff999"; server.Source := "pr";
          server.BenchmarkType := "micro"; server.PlannerVersion := "";
          server.PullNb := 0 |};
     server.compareWith := [A]; server.executing := true;
     server.notifyAlways := true |}.

(** The run of A is Finished from the third poll tick on. *)
Definition A_finishes_at_2 : server.CompareEnv :=
  {| server.db_at := λ tick,
       match tick with
       | O | 1%nat => {| rows := []; journal := [] |}
       | _ => {| rows := [finished_run "a0000000-0003" A]; journal := [] |}
       end;
     server.select_fault := no_fault;
     server.notify_fault := no_fault |}.

(** No run is ever Finished. *)
Definition nothing_finishes : server.CompareEnv :=
  {| server.db_at := λ _, {| rows := []; journal := [] |};
     server.select_fault := no_fault;
     server.notify_fault := no_fault |}.

(** A store with two Finished micro runs of source pr on other commits,
    the later one started at 30, and a Finished cron run. *)
Definition history_db : DB :=
  {| rows := [ {| uuid := "11111111-aaaa"; status := StatusFinished; source := "pr";
                  git_ref := "old111"; type_ := "micro"; planner_version := "";
                  pull_nb := 0; started_at := Some 10; finished_at := Some 20 |};
               {| uuid := "22222222-bbbb"; status := StatusFinished; source := "pr";
                  git_ref := "old222"; type_ := "micro"; planner_version := "";
                  pull_nb := 0; started_at := Some 30; finished_at := Some 40 |};
               {| uuid := "33333333-cccc"; status := StatusFinished; source := "cron";
                  git_ref := "cron333"; type_ := "micro"; planner_version := "";
                  pull_nb := 0; started_at := Some 5; finished_at := Some 6 |} ];
     journal := [] |}.

(** The micro comparison reports a regression, Slack accepts it. *)
Definition regression_found : notification.NotifyEnv :=
  {| notification.previous_fault := None;
     notification.CompareMicroBenchmarks := λ _ _, Ok "BenchmarkParse: +12%";
     notification.influx_NewClient := None;
     notification.CompareMacroBenchmarks := λ _ _, Ok ∅;
     notification.slack_Send := λ _, None |}.


(** The fetch fails. *)
Definition fetch_fails : vitess.VitessEnv :=
  {| vitess.ReadDir := λ _, Ok [ {| vitess.Name := "vitess"; vitess.IsDir := true |} ];
     vitess.ExecCmd := λ c,
       if decide (vitess.cmd_line c = ["git"; "fetch"; "origin"; "--tags"])
       then Some "exit status 128" else None |}.

(** Stand-ins for [path.Join] and [fmt.Errorf] where a closed term needs
    them. *)
Definition join_with_slash (dir file : string) : string := dir +:+ "/" +:+ file.
Definition same_text (format : string) : error := format.

End samples.

(** ** Properties of package [exec] *)
Section exec_properties.
Import mysql exec vocabulary.

Lemma Insert_rows c a q db :
  rows (Insert c a q db).1 = rows db
  ∨ ∃ now, c ≠ None ∧ a = Done now ∧ rows (Insert c a q db).1 = run_stmt now q (rows db).
Proof.
  destruct c as [c|], a as [now|err]; cbn; eauto.
Qed.

Lemma Insert_journal c a q db :
  journal (Insert c a q db).1 = journal db ++ [(q, bool_decide ((Insert c a q db).2 = None))].
Proof. by destruct c as [c|], a as [now|err]. Qed.

Lemma Insert_error_rows c a q db :
  (Insert c a q db).2 ≠ None → rows (Insert c a q db).1 = rows db.
Proof. by destruct c as [c|], a as [now|err]. Qed.

Lemma Insert_nil_rows c a q db :
  (Insert c a q db).2 = None →
  ∃ now, a = Done now ∧ rows (Insert c a q db).1 = run_stmt now q (rows db).
Proof. destruct c as [c|], a as [now|err]; cbn; try done. eauto. Qed.

Lemma Execute_body_keeps_identity env e db :
  UUID (Execute_body env e db).1.2 = UUID e
  ∧ clientDB (Execute_body env e db).1.2 = clientDB e.
Proof.
  unfold Execute_body.
  repeat (case_match; cbn; try done).
Qed.

(** A status update leaves alone the records that end up Started: the
    deferred update writes Finished or Failed, never Started. *)
Lemma run_stmt_terminal_Started now st u t r :
  st ≠ StatusStarted →
  r ∈ run_stmt now (UpdateFinished st u) t →
  status r = StatusStarted →
  r ∈ t.
Proof.
  intros Hst Hr Hs. cbn in Hr.
  apply list_elem_of_fmap in Hr as (r0 & -> & Hr0).
  case_decide; [|done].
  cbn in Hs. congruence.
Qed.

Lemma run_stmt_terminal_status now st u t r :
  r ∈ run_stmt now (UpdateFinished st u) t →
  uuid r = u →
  status r = st.
Proof.
  intros Hr Hu. cbn in Hr.
  apply list_elem_of_fmap in Hr as (r0 & -> & Hr0).
  case_decide; [done|]. congruence.
Qed.

Lemma status_for_terminal err : terminal (status_for err).
Proof. destruct err; [by right | by left]. Qed.

(** The statements that the body of [Execute] sends: nothing, or the
    update to Started. *)
Lemma Execute_body_journal env e db :
  ∃ mid, journal (Execute_body env e db).2 = journal db ++ mid
         ∧ ∀ q ok, (q, ok) ∈ mid → q = UpdateStarted StatusStarted (UUID e).
Proof.
  unfold Execute_body.
  destruct (negb (prepared e)).
  { exists []. cbn. rewrite app_nil_r. split; [done|]. intros ?? []%elem_of_nil. }
  pose proof (Insert_journal (clientDB e) (update_started env)
                (UpdateStarted StatusStarted (UUID e)) db) as Hj.
  destruct (Insert _ _ _ db) as [db1 o] eqn:HI. cbn in Hj.
  exists [(UpdateStarted StatusStarted (UUID e), bool_decide (o = None))].
  assert (∀ q ok, (q, ok) ∈ [(UpdateStarted StatusStarted (UUID e), bool_decide (o = None))]
                  → q = UpdateStarted StatusStarted (UUID e)) as Hmid.
  { intros q ok [=]%list_elem_of_singleton. done. }
  repeat (case_match; cbn; try done).
Qed.

(** C7: when [Prepare] has not completed ([prepared] is false), [Execute]
    returns the NotPrepared error and the run's record is never updated
    to Started: the only statement sent is the deferred update with
    status Failed, and every record that is Started afterwards was
    already in the store, unchanged. *)
Theorem Execute_not_prepared env e db :
  prepared e = false →
  (Execute env e db).1.1 = Returned (Some ErrorNotPrepared)
  ∧ (∃ ok, journal (Execute env e db).2
           = journal db ++ [(UpdateFinished StatusFailed (UUID e), ok)])
  ∧ (∀ r, r ∈ rows (Execute env e db).2 → status r = StatusStarted → r ∈ rows db).
Proof.
  intros Hp. unfold Execute, Execute_body. rewrite Hp. cbn.
  unfold Execute_deferred. cbn.
  split; [done|]. split.
  - eexists. apply Insert_journal.
  - intros r Hr Hs.
    destruct (Insert_rows (clientDB e) (update_terminal env)
                (UpdateFinished StatusFailed (UUID e)) db) as [Heq|(now & _ & _ & Heq)];
      rewrite Heq in Hr; [done|].
    eapply run_stmt_terminal_Started; [|exact Hr|exact Hs].
    intros [=].
Qed.

Lemma Execute_not_prepared_witness :
  (Execute samples.all_fine samples.fresh_exec samples.created_db).1.1
    = Returned (Some ErrorNotPrepared)
  ∧ (∃ ok, journal (Execute samples.all_fine samples.fresh_exec samples.created_db).2
           = journal samples.created_db
               ++ [(UpdateFinished StatusFailed (UUID samples.fresh_exec), ok)])
  ∧ (∀ r, r ∈ rows (Execute samples.all_fine samples.fresh_exec samples.created_db).2 →
          status r = StatusStarted → r ∈ rows samples.created_db).
Proof.
  apply (Execute_not_prepared samples.all_fine samples.fresh_exec samples.created_db).
  reflexivity.
Defined.

(** C1, as the code has it: on every way out of [Execute] (return of nil,
    return of an error, panic of a step) the deferred update is the last
    statement sent to the store; before it the body sent at most the
    update to Started; its status is Finished when [Execute] returns nil,
    Failed when it returns an error, and one of the two after a panic.
    When the store executes that statement, every record of the run has
    that status, so none is left Started. The result of the update is
    discarded: when the store refuses it, the table is as the body left
    it. *)
Theorem Execute_terminal_update env e db :
  ∃ mid st ok,
    journal (Execute env e db).2
      = journal db ++ mid ++ [(UpdateFinished st (UUID e), ok)]
    ∧ (∀ q b, (q, b) ∈ mid → q = UpdateStarted StatusStarted (UUID e))
    ∧ terminal st
    ∧ ((Execute env e db).1.1 = Returned None → st = StatusFinished)
    ∧ (∀ err, (Execute env e db).1.1 = Returned (Some err) → st = StatusFailed)
    ∧ (ok = true ↔ clientDB e ≠ None ∧ ∃ now, update_terminal env = Done now)
    ∧ (ok = true →
       ∀ r, r ∈ rows (Execute env e db).2 → uuid r = UUID e → status r = st)
    ∧ (ok = false → rows (Execute env e db).2 = rows (Execute_body env e db).2).
Proof.
  destruct (Execute_body_journal env e db) as (mid & Hj & Hmid).
  destruct (Execute_body_keeps_identity env e db) as [Hu Hc].
  unfold Execute.
  destruct (Execute_body env e db) as [[[c err] e1] db1] eqn:Hb. cbn in *.
  unfold Execute_deferred. fold (status_for err).
  set (q := UpdateFinished (status_for err) (UUID e1)).
  pose proof (Insert_journal (clientDB e1) (update_terminal env) q db1) as HJ.
  exists mid, (status_for err), (bool_decide ((Insert (clientDB e1) (update_terminal env) q db1).2 = None)).
  rewrite HJ, Hj, <- app_assoc. subst q. rewrite Hu, Hc.
  split; [done|]. split; [done|]. split; [apply status_for_terminal|].
  split. { destruct c; [|done]. by intros [= ->]. }
  split. { intros err'. destruct c; [|done]. by intros [= ->]. }
  split.
  { rewrite bool_decide_eq_true.
    destruct (clientDB e) as [cl|], (update_terminal env) as [now|er]; cbn;
      split; try done; try (intros [? [? ?]]; done); eauto. }
  split.
  - rewrite bool_decide_eq_true. intros Hok r Hr Hur.
    apply Insert_nil_rows in Hok as (now & _ & Hrows).
    rewrite Hrows in Hr. by eapply run_stmt_terminal_status.
  - rewrite bool_decide_eq_false. apply Insert_error_rows.
Qed.

(** C1, counterexample: a prepared run whose provisioning fails while the
    store refuses the deferred update. [Execute] has returned its error,
    and the record of the run is still Started. *)
Lemma Execute_leaves_Started :
  (Execute samples.store_lost samples.prepared_exec samples.created_db).1.1
    = Returned (Some "no device available")
  ∧ ∃ r, r ∈ rows (Execute samples.store_lost samples.prepared_exec samples.created_db).2
         ∧ uuid r = UUID samples.prepared_exec
         ∧ status r = StatusStarted.
Proof.
  split; [reflexivity|].
  eexists. split; [|split]; [apply list_elem_of_here|reflexivity|reflexivity].
Qed.

(** A run whose every step succeeds goes from Created through Started
    to Finished, with both timestamps. *)
Example Prepare_then_Execute :
  let '(err, e, db) := Prepare samples.all_prepared samples.fresh_exec samples.empty_db in
  err = None
  ∧ prepared e = true
  ∧ rows db = [created_row samples.fresh_exec]
  ∧ (Execute samples.all_fine e db).1.1 = Returned None
  ∧ rows (Execute samples.all_fine e db).2
    = [set_finished 200 StatusFinished
         (set_started 100 StatusStarted (created_row samples.fresh_exec))].
Proof. repeat split; reflexivity. Qed.

(** After a panic of the run step the named result is still nil, so the
    deferred function writes Finished. *)
Example Execute_run_panic_writes_Finished :
  Execute {| update_started := Done 100; provision := Ok ["10.0.0.1"];
             AddIPsToFiles := None; AddLocalConfigPathToFiles := None;
             Infra_Run := RunPanic "runtime error"; update_terminal := Done 200 |}
    samples.prepared_exec samples.created_db
  = (Panicked "runtime error",
     set_ExtraVars (Some (<[keyExecSource := "pr"]>
                            (<[keyVitessVersion := "abc123"]>
                               (<[keyExecUUID := "6f1c2a9e-0001"]> ∅))))
       samples.prepared_exec,
     {| rows := [set_finished 200 StatusFinished
                   (set_started 100 StatusStarted
                      (samples.row_of "6f1c2a9e-0001" StatusCreated))];
        journal := journal samples.created_db
                     ++ [(UpdateStarted StatusStarted "6f1c2a9e-0001", true);
                         (UpdateFinished StatusFinished "6f1c2a9e-0001", true)] |}).
Proof. reflexivity. Qed.

Lemma Prepare_error_unprepared env e db err :
  (Prepare env e db).1.1 = Some err → prepared e = false.
Proof. unfold Prepare. by destruct (prepared e). Qed.

(** C10: when [Prepare] returns an error the [prepared] flag is still
    false, so a later call does the preparation again from its first
    step: it connects again (a connection error is what it returns), it
    sends the INSERT of the record again, and when every step succeeds
    it ends prepared with one more Created record in the store. Nothing
    is undone on error: when the failing step came after the insertion,
    the Created record is in the store. *)
Theorem Prepare_error_not_prepared env e db err e' db' :
  Prepare env e db = (Some err, e', db') →
  prepared e' = false
  ∧ (∀ env2 err2, mysql_New env2 = Err err2 →
       (Prepare env2 e' db').1.1 = Some err2)
  ∧ (∀ env2 c, mysql_New env2 = Ok c →
       ∃ ok rest, journal (Prepare env2 e' db').2 = journal db' ++ (insert_of e, ok) :: rest)
  ∧ (∀ env2 c now d,
       mysql_New env2 = Ok c → insert_created env2 = Done now →
       prepareDirectories env2 = Ok d → Infra_Prepare env2 = None →
       (Prepare env2 e' db').1.1 = None
       ∧ prepared (Prepare env2 e' db').1.2 = true
       ∧ rows (Prepare env2 e' db').2 = rows db' ++ [created_row e])
  ∧ (∀ c now, mysql_New env = Ok c → insert_created env = Done now →
       rows db' = rows db ++ [created_row e]).
Proof.
  intros HP.
  assert (prepared e = false) as Hp.
  { apply (Prepare_error_unprepared env e db err). by rewrite HP. }
  assert (prepared e' = false ∧ UUID e' = UUID e ∧ Source e' = Source e
          ∧ GitRef e' = GitRef e ∧ typeOf e' = typeOf e) as (Hp' & Hu & Hs & Hg & Ht).
  { unfold Prepare in HP. rewrite Hp in HP.
    repeat (case_match; simplify_eq/=; try done). }
  split; [done|]. split; [|split; [|split]].
  - intros env2 err2 Hn. unfold Prepare. by rewrite Hp', Hn.
  - intros env2 c Hn. unfold Prepare. rewrite Hp', Hn. cbn.
    unfold insert_of. rewrite Hu, Hs, Hg, Ht.
    destruct (insert_created env2) as [now|er]; cbn.
    + exists true, []. by repeat (case_match; cbn).
    + by exists false, [].
  - intros env2 c now d Hn Hi Hd Hf. unfold Prepare.
    rewrite Hp', Hn. cbn. rewrite Hi. cbn. rewrite Hd, Hf. cbn.
    unfold created_row. rewrite Hu, Hs, Hg, Ht.
    by repeat case_match.
  - intros c now Hn Hi. unfold Prepare in HP.
    rewrite Hp, Hn in HP. cbn in HP. rewrite Hi in HP. cbn in HP.
    repeat (case_match; simplify_eq/=; try done).
Qed.

Lemma Prepare_error_not_prepared_witness :
  prepared (Prepare samples.mkdir_fails samples.fresh_exec samples.empty_db).1.2 = false
  ∧ rows (Prepare samples.mkdir_fails samples.fresh_exec samples.empty_db).2
    = [created_row samples.fresh_exec].
Proof.
  pose proof (Prepare_error_not_prepared samples.mkdir_fails samples.fresh_exec
                samples.empty_db "mkdir /exec: permission denied" _ _ eq_refl)
    as (Hp & _ & _ & _ & Hrows).
  split; [exact Hp|].
  exact (Hrows samples.client0 50 eq_refl eq_refl).
Defined.

(** C9: when the select of [Exists] succeeds and no row of the store
    matches the status, git reference, type and source, [Exists] returns
    (false, nil); when the select fails it returns false with the error
    of the store. *)
Theorem Exists_zero_rows_or_error clientDB fault db gitRef source typeOf status :
  (∀ result,
     Select clientDB fault (select_exists status gitRef typeOf source) db = Ok result →
     (∀ r, r ∈ rows db → ¬ matches_exists status gitRef typeOf source r) →
     Exists clientDB fault db gitRef source typeOf status = (false, None))
  ∧ (∀ err,
       Select clientDB fault (select_exists status gitRef typeOf source) db = Err err →
       Exists clientDB fault db gitRef source typeOf status = (false, Some err)).
Proof.
  unfold Exists. split.
  - intros result HS Hno. rewrite HS.
    destruct clientDB as [c|], fault as [er|]; simplify_eq/=.
    unfold select_exists.
    replace (filter (matches_exists status gitRef typeOf source) (rows db))
      with (@nil Row); [done|].
    symmetry. induction (rows db) as [|r t IH]; [done|].
    rewrite filter_cons_False.
    + apply IH. intros r' Hr'. apply Hno. by right.
    + apply Hno. by left.
  - intros err HS. by rewrite HS.
Qed.

Lemma Exists_zero_rows_or_error_witness :
  Exists (Some samples.client0) None samples.created_db "abc123" "pr" "micro" StatusFinished
    = (false, None)
  ∧ Exists (Some samples.client0) (Some "invalid connection") samples.created_db
      "abc123" "pr" "micro" StatusFinished
    = (false, Some "invalid connection").
Proof.
  destruct (Exists_zero_rows_or_error (Some samples.client0) None samples.created_db
              "abc123" "pr" "micro" StatusFinished) as [Hzero _].
  destruct (Exists_zero_rows_or_error (Some samples.client0) (Some "invalid connection")
              samples.created_db "abc123" "pr" "micro" StatusFinished) as [_ Herr].
  split.
  - apply (Hzero []); [reflexivity|].
    intros r Hr [Hs _]. apply list_elem_of_singleton in Hr. subst r. discriminate Hs.
  - apply Herr. reflexivity.
Defined.

End exec_properties.


(** ** Properties of package [server] *)
Section server_properties.
Import mysql server vocabulary.

Lemma Next_true_iff (l : Rows) : Next l = true ↔ l ≠ [].
Proof. by destruct l. Qed.

Lemma select_exists_nonempty st ref ty src (t : list Row) :
  select_exists st ref ty src t ≠ []
  ↔ ∃ r, r ∈ t ∧ matches_exists st ref ty src r.
Proof.
  unfold select_exists. split.
  - intros Hne.
    destruct (filter (matches_exists st ref ty src) t) as [|r l] eqn:Hf; [done|].
    assert (r ∈ filter (matches_exists st ref ty src) t) as Hin
      by (rewrite Hf; by left).
    apply list_elem_of_filter in Hin as [Hm Hr]. by exists r.
  - intros (r & Hr & Hm) Hnil.
    apply fmap_nil_inv in Hnil.
    assert (r ∈ filter (matches_exists st ref ty src) t) as Hin
      by by apply list_elem_of_filter.
    rewrite Hnil in Hin. by apply elem_of_nil in Hin.
Qed.

(** C8, as the code has it: for a micro identifier the check before
    insertion returns true exactly when the select succeeds and the store
    holds a Finished run with the same git reference, source and
    benchmark type; the planner version and the pull-request number of
    the identifier are not compared. When the select fails the check
    returns false with the error. *)
Theorem checkIfExecutionExists_micro dbClient ExistsMacrobenchmark fault db identifier :
  BenchmarkType identifier = "micro" →
  ((checkIfExecutionExists dbClient ExistsMacrobenchmark fault db identifier).1 = true
   ↔ dbClient ≠ None ∧ fault exec.StatusFinished = None
     ∧ ∃ r, r ∈ rows db ∧ status r = exec.StatusFinished
            ∧ git_ref r = GitRef identifier ∧ source r = Source identifier
            ∧ type_ r = BenchmarkType identifier)
  ∧ ((checkIfExecutionExists dbClient ExistsMacrobenchmark fault db identifier).1 = true →
     (checkIfExecutionExists dbClient ExistsMacrobenchmark fault db identifier).2 = None)
  ∧ (∀ err,
       Select dbClient (fault exec.StatusFinished)
         (select_exists exec.StatusFinished (GitRef identifier)
            (BenchmarkType identifier) (Source identifier)) db = Err err →
       checkIfExecutionExists dbClient ExistsMacrobenchmark fault db identifier
       = (false, Some err)).
Proof.
  intros Hmicro.
  unfold checkIfExecutionExists, checkStatus, checkIfExecutionExists_range. cbn.
  rewrite decide_True by done.
  unfold exec.Exists, Select.
  destruct dbClient as [c|]; cbn.
  2:{ split; [|split]; [split; [done|by intros [? _]]|done|by intros err [= <-]]. }
  destruct (fault exec.StatusFinished) as [er|]; cbn.
  { split; [|split]; [split; [done|by intros (_ & ? & _)]|done|by intros err [= <-]]. }
  split; [|split]; [|by case_match|done].
  transitivity (Next (select_exists exec.StatusFinished (GitRef identifier)
                        (BenchmarkType identifier) (Source identifier) (rows db)) = true).
  { by case_match. }
  rewrite Next_true_iff, select_exists_nonempty. unfold matches_exists.
  split.
  - intros (r & Hr & Hs & Hg & Ht & Hsrc). split; [done|]. split; [done|].
    by exists r.
  - intros (_ & _ & r & Hr & Hs & Hg & Hsrc & Ht). by exists r.
Qed.

Lemma checkIfExecutionExists_micro_witness :
  (checkIfExecutionExists (Some samples.client0) samples.no_macrobenchmark
     (λ _, None) samples.pr41_finished_db samples.pr42).1 = true.
Proof.
  apply (checkIfExecutionExists_micro (Some samples.client0) samples.no_macrobenchmark
           (λ _, None) samples.pr41_finished_db samples.pr42 eq_refl).
  split; [done|]. split; [done|].
  eexists. split; [apply list_elem_of_here|]. done.
Defined.

(** C8, counterexample: the store holds a Finished micro run of the same
    commit and source, made for pull request 41. The check for the
    submission of pull request 42 answers true although no run of the
    store matches every field of the submitted identifier. *)
Lemma checkIfExecutionExists_ignores_pull_number :
  checkIfExecutionExists (Some samples.client0) samples.no_macrobenchmark
    (λ _, None) samples.pr41_finished_db samples.pr42 = (true, None)
  ∧ ¬ ∃ r, r ∈ rows samples.pr41_finished_db ∧ matches_finished samples.pr42 r.
Proof.
  split; [reflexivity|].
  intros (r & Hr & Hm).
  apply list_elem_of_singleton in Hr. subst r.
  destruct Hm as (_ & _ & _ & _ & _ & Hpull). discriminate Hpull.
Qed.

Lemma cronExecutionQueueWatcher_range_spec order s :
  (cronExecutionQueueWatcher_range order s = (s, None)
   ∧ ∀ p element, p ∈ order → heap s !! p = Some element → executing element = true)
  ∨ (∃ p element,
       p ∈ order ∧ heap s !! p = Some element ∧ executing element = false
       ∧ cronExecutionQueueWatcher_range order s = (dispatched p element s, Some p)).
Proof.
  induction order as [|p order IH]; cbn.
  { left. split; [done|]. by intros ?? ?%elem_of_nil. }
  destruct (heap s !! p) as [element|] eqn:Hp.
  - destruct (executing element) eqn:He; cbn.
    + destruct IH as [[-> Hall]|(p' & element' & Hin & Hp' & He' & ->)].
      * left. split; [done|]. intros p' element' [->|Hin]%elem_of_cons Hp'.
        -- congruence.
        -- by eapply Hall.
      * right. exists p', element'. split; [by right|done].
    + right. exists p, element. split; [by left|done].
  - destruct IH as [[-> Hall]|(p' & element' & Hin & Hp' & He' & ->)].
    + left. split; [done|]. intros p' element' [->|Hin]%elem_of_cons Hp'.
      * congruence.
      * by eapply Hall.
    + right. exists p', element'. split; [by right|done].
Qed.

(** C5: one tick of the dispatch loop. At or above the ceiling the tick
    changes nothing and starts nothing. Below it, either every element
    that the map yields is executing and nothing changes, or exactly one
    element whose flag was false gets it set, the counter goes up by
    one, that element is the only one handed to a new goroutine, and
    the rest of the shared state is as before. *)
Theorem tick_dispatches_at_most_one maxConcurJob order s :
  (currentCountExec s >= maxConcurJob →
   cronExecutionQueueWatcher_tick maxConcurJob order s = (s, None))
  ∧ (currentCountExec s < maxConcurJob →
     (cronExecutionQueueWatcher_tick maxConcurJob order s = (s, None)
      ∧ ∀ p element, p ∈ order → heap s !! p = Some element → executing element = true)
     ∨ (∃ p element,
          p ∈ order ∧ heap s !! p = Some element ∧ executing element = false
          ∧ cronExecutionQueueWatcher_tick maxConcurJob order s
            = (dispatched p element s, Some p))).
Proof.
  unfold cronExecutionQueueWatcher_tick.
  destruct (currentCountExec s >=? maxConcurJob) eqn:Hc; rewrite Z.geb_leb in Hc.
  - apply Z.leb_le in Hc. split; [done|lia].
  - apply Z.leb_gt in Hc. split; [lia|].
    intros _. apply cronExecutionQueueWatcher_range_spec.
Qed.

Section with_executeSingle.
Variable executeSingle : list Event → string → executionIdentifier → option error.

(** The body of [executeElement] as one equation. *)
Lemma executeElement_eq s tr p :
  executeElement executeSingle s tr p =
  match heap s !! p with
  | None => (s, tr)
  | Some element =>
      if bool_decide (retry element < 0) then
        match queue s !! identifier element with
        | Some _ =>
            (decrementNumberOfOnGoingExecution
               (set_queue (delete (identifier element) (queue s)) s),
             tr ++ [EvDelete (identifier element); EvDecrement])
        | None => (decrementNumberOfOnGoingExecution s, tr ++ [EvDecrement])
        end
      else
        match executeSingle tr (config element) (identifier element) with
        | Some err =>
            executeElement executeSingle
              (set_heap (<[p := set_retry (retry element - 1) element]> (heap s)) s)
              (tr ++ [EvExecuteSingle (config element) (identifier element)]) p
        | None =>
            (decrementNumberOfOnGoingExecution s,
             tr ++ [EvExecuteSingle (config element) (identifier element);
                    EvGoCompare p; EvDecrement])
        end
  end.
Proof.
  funelim (executeElement executeSingle s tr p);
    repeat match goal with
      | H : heap _ !! _ = _ |- _ => rewrite H
      | H : bool_decide _ = _ |- _ => rewrite H
      | H : executeSingle _ _ _ = _ |- _ => rewrite H
      end;
    reflexivity.
Qed.

(** An element whose attempts all fail: [n + 1] attempts one after the
    other, then removal and one decrement. *)
Lemma executeElement_always_failing (n : nat) : ∀ s tr p element q,
  (∀ tr' c i, executeSingle tr' c i ≠ None) →
  heap s !! p = Some element →
  queue s !! identifier element = Some q →
  retry element = Z.of_nat n →
  executeElement executeSingle s tr p
  = (given_up p element s,
     tr ++ replicate (S n) (EvExecuteSingle (config element) (identifier element))
        ++ [EvDelete (identifier element); EvDecrement]).
Proof.
  induction n as [|n IH]; intros s tr p element q Hfail Hp Hq Hr.
  - rewrite executeElement_eq, Hp.
    rewrite bool_decide_eq_false_2 by lia.
    destruct (executeSingle tr (config element) (identifier element)) eqn:He;
      [|by apply Hfail in He].
    rewrite executeElement_eq. cbn. rewrite lookup_insert_eq. cbn.
    rewrite bool_decide_eq_true_2 by lia. rewrite Hq.
    unfold given_up, decrementNumberOfOnGoingExecution. cbn.
    rewrite Hr, <- app_assoc. done.
  - rewrite executeElement_eq, Hp.
    rewrite bool_decide_eq_false_2 by lia.
    destruct (executeSingle tr (config element) (identifier element)) eqn:He;
      [|by apply Hfail in He].
    rewrite (IH _ _ _ (set_retry (retry element - 1) element) q); cbn; try done.
    + unfold given_up. cbn. rewrite insert_insert_eq, <- app_assoc. done.
    + by rewrite lookup_insert_eq.
    + lia.
Qed.

Lemma count_events_app f tr1 tr2 :
  count_events f (tr1 ++ tr2) = (count_events f tr1 + count_events f tr2)%nat.
Proof. unfold count_events. by rewrite filter_app, length_app. Qed.

Lemma count_events_replicate_attempts f n c i :
  count_events f (replicate n (EvExecuteSingle c i))
  = if f (EvExecuteSingle c i) then n else O.
Proof.
  unfold count_events. induction n as [|n IH]; [by destruct (f _)|].
  cbn [replicate]. destruct (f (EvExecuteSingle c i)) eqn:Hf.
  - rewrite filter_cons_True by done. cbn [length]. by rewrite IH.
  - rewrite filter_cons_False by (by rewrite Hf). done.
Qed.

(** C3: an element dispatched with retry budget N ≥ 0 whose attempts all
    fail. Its goroutine makes exactly N + 1 calls of [executeSingle], one
    after the other, then deletes the element from the queue and
    decrements the counter once; it starts no comparison. Afterwards the
    identifier is no longer in the queue, the rest of the queue is
    untouched, and the counter is one lower. *)
Theorem executeElement_retry_budget s tr p element q :
  (∀ tr' c i, executeSingle tr' c i ≠ None) →
  heap s !! p = Some element →
  queue s !! identifier element = Some q →
  0 ≤ retry element →
  ∃ evs,
    executeElement executeSingle s tr p = (given_up p element s, tr ++ evs)
    ∧ evs = replicate (Z.to_nat (retry element + 1))
              (EvExecuteSingle (config element) (identifier element))
            ++ [EvDelete (identifier element); EvDecrement]
    ∧ count_events is_attempt evs = Z.to_nat (retry element + 1)
    ∧ count_events is_compare evs = O
    ∧ count_events is_decrement evs = 1%nat
    ∧ queue (given_up p element s) !! identifier element = None
    ∧ (∀ i, i ≠ identifier element → queue (given_up p element s) !! i = queue s !! i)
    ∧ currentCountExec (given_up p element s) = currentCountExec s - 1.
Proof.
  intros Hfail Hp Hq Hr.
  eexists. split; [|split; [reflexivity|]].
  - rewrite (executeElement_always_failing (Z.to_nat (retry element)) s tr p element q)
      by (done || lia).
    by replace (Z.to_nat (retry element + 1)) with (S (Z.to_nat (retry element))) by lia.
  - rewrite !count_events_app, !count_events_replicate_attempts.
    change (count_events is_attempt [EvDelete (identifier element); EvDecrement]) with O.
    change (count_events is_compare [EvDelete (identifier element); EvDecrement]) with O.
    change (count_events is_decrement [EvDelete (identifier element); EvDecrement])
      with 1%nat.
    cbn [is_attempt is_compare is_decrement].
    split; [lia|]. split; [done|]. split; [done|].
    split; [apply lookup_delete_eq|]. split; [|done].
    intros i Hi. by apply lookup_delete_ne.
Qed.

End with_executeSingle.

Lemma executeElement_retry_budget_witness :
  executeElement samples.always_fails samples.A_dispatched [] 0
  = ({| heap := {[ 0%nat := set_retry (-1) samples.element_A ]};
        queue := ∅; currentCountExec := 0 |},
     [EvExecuteSingle "/config.yaml" samples.A;
      EvExecuteSingle "/config.yaml" samples.A;
      EvExecuteSingle "/config.yaml" samples.A;
      EvDelete samples.A; EvDecrement]).
Proof.
  destruct (executeElement_retry_budget samples.always_fails samples.A_dispatched []
              0%nat samples.element_A 0%nat) as (evs & -> & -> & _);
    [done|done|done|done|].
  reflexivity.
Defined.

Lemma slots_app gs1 gs2 : slots (gs1 ++ gs2) = slots gs1 + slots gs2.
Proof. unfold slots. rewrite filter_app, length_app. lia. Qed.

Lemma slots_cons g gs :
  slots (g :: gs) = (if holds_slot g then 1 else 0) + slots gs.
Proof.
  unfold slots. destruct (holds_slot g) eqn:Hg.
  - rewrite filter_cons_True by done. cbn [length]. lia.
  - rewrite filter_cons_False by (by rewrite Hg). lia.
Qed.

Lemma slots_nonneg gs : 0 ≤ slots gs.
Proof. unfold slots. lia. Qed.

Section with_ceiling.
Variable maxConcurJob : Z.

Lemma counter_ok_initial : 0 ≤ maxConcurJob → counter_ok maxConcurJob initial.
Proof. intros Hmax. split; [done|exact Hmax]. Qed.

(** Every step of every goroutine keeps the counter equal to the number
    of goroutines that hold a slot, and below the ceiling. *)
Lemma counter_ok_step σ σ' :
  step maxConcurJob σ σ' → counter_ok maxConcurJob σ → counter_ok maxConcurJob σ'.
Proof.
  unfold counter_ok.
  intros Hstep [Hcount Hmax].
  destruct Hstep as [σ order s' spawned _ Htick
                    |σ gs1 gs2 p element Hpool _ _
                    |σ gs1 gs2 p element Hpool _ _
                    |σ gs1 gs2 p element Hpool _ _
                    |σ gs1 gs2 Hpool
                    |σ gs1 gs2 p element Hpool _
                    |σ p element _ _]; cbn.
  - unfold cronExecutionQueueWatcher_tick in Htick.
    destruct (currentCountExec (sched σ) >=? maxConcurJob) eqn:Hc.
    + simplify_eq/=. rewrite app_nil_r. done.
    + rewrite Z.geb_leb in Hc. apply Z.leb_gt in Hc.
      destruct (cronExecutionQueueWatcher_range_spec order (sched σ))
        as [[Hr _]|(p & element & _ & _ & _ & Hr)];
        rewrite Hr in Htick; simplify_eq/=.
      * rewrite app_nil_r. done.
      * rewrite slots_app, slots_cons. cbn. unfold slots at 2. cbn. lia.
  - rewrite Hpool in Hcount. rewrite slots_app, slots_cons in *. done.
  - rewrite Hpool in Hcount. done.
  - rewrite Hpool in Hcount.
    rewrite slots_app, slots_cons, slots_app, slots_cons in *. cbn in *.
    unfold slots at 3. cbn. lia.
  - rewrite Hpool in Hcount. rewrite slots_app in *. rewrite slots_cons in Hcount.
    cbn in Hcount. lia.
  - rewrite Hpool in Hcount. rewrite slots_app in *. rewrite slots_cons in Hcount.
    cbn in Hcount. lia.
  - done.
Qed.

Lemma counter_ok_reachable σ :
  0 ≤ maxConcurJob → reachable maxConcurJob σ → counter_ok maxConcurJob σ.
Proof.
  intros Hmax Hreach.
  apply (rtc_ind_r (R := step maxConcurJob) (counter_ok maxConcurJob) initial);
    [..|exact Hreach].
  - by apply counter_ok_initial.
  - intros σ1 σ2 _ Hstep IH. by eapply counter_ok_step.
Qed.

(** C4: with a ceiling that is not negative, in every state that the
    dispatch loop, the element goroutines, the comparators and the
    submissions can reach, in any interleaving, [currentCountExec] lies
    between 0 and [maxConcurJob]. *)
Theorem currentCountExec_bounded σ :
  0 ≤ maxConcurJob →
  reachable maxConcurJob σ →
  0 ≤ currentCountExec (sched σ) ≤ maxConcurJob.
Proof.
  intros Hmax Hreach.
  destruct (counter_ok_reachable σ Hmax Hreach) as [Hcount Hle].
  split; [|exact Hle].
  rewrite Hcount. apply slots_nonneg.
Qed.

Lemma set_queue_delete_absent s i :
  queue s !! i = None → set_queue (delete i (queue s)) s = s.
Proof. intros Hi. destruct s. unfold set_queue. cbn in *. by rewrite delete_id. Qed.

(** The goroutine of [executeElement] run alone is one path of the
    interleaving: its steps lead from the state before the call to the
    state that the function computes, leaving behind at most the
    comparator it started. *)
Lemma executeElement_is_a_path executeSingle s tr p : ∀ gs1 gs2,
  is_Some (heap s !! p) →
  ∃ gs', Forall (λ g, holds_slot g = false) gs'
         ∧ rtc (step maxConcurJob)
             {| sched := s; pool := gs1 ++ GoExecuteElement p :: gs2 |}
             {| sched := (executeElement executeSingle s tr p).1;
                pool := gs1 ++ gs2 ++ gs' |}.
Proof.
  funelim (executeElement executeSingle s tr p); intros gs1 gs2 Hsome.
  - match goal with H : heap _ !! _ = None |- _ => rewrite H in Hsome end.
    by destruct Hsome.
  - match goal with
    | H : bool_decide _ = true |- _ => pose proof (proj1 (bool_decide_eq_true _) H)
    end.
    exists []. split; [done|]. rewrite app_nil_r.
    eapply rtc_l.
    { by eapply (step_exhausted _ {| sched := s; pool := _ |}). }
    apply rtc_once. cbn.
    destruct (queue s !! identifier element) eqn:Hq; cbn.
    + by eapply (step_decrement _ {| sched := _; pool := _ |}).
    + rewrite set_queue_delete_absent by done.
      by eapply (step_decrement _ {| sched := _; pool := _ |}).
  - match goal with
    | H : bool_decide _ = false |- _ => pose proof (proj1 (bool_decide_eq_false _) H)
    end.
    match goal with
    | IH : ∀ gs1 gs2, is_Some _ → _ |- _ =>
        destruct (IH gs1 gs2) as (gs' & Hgs' & Hrtc)
    end.
    { cbn. rewrite lookup_insert_eq. by eexists. }
    exists gs'. split; [done|].
    eapply rtc_l; [|exact Hrtc].
    by eapply (step_failed _ {| sched := s; pool := _ |}).
  - match goal with
    | H : bool_decide _ = false |- _ => pose proof (proj1 (bool_decide_eq_false _) H)
    end.
    exists [GoCompare p]. split; [by repeat constructor|].
    eapply rtc_l.
    { by eapply (step_succeeded _ {| sched := s; pool := _ |}). }
    apply rtc_once. cbn.
    by eapply (step_decrement _ {| sched := _; pool := _ |}).
Qed.

End with_ceiling.

(** C2, at the failing input: the element is compared with A and B, the
    run of A is Finished from the first poll tick on and B never runs.
    The comparator calls the notification for the pair (element, A) on
    the first tick and again on the second, and then stops, however many
    ticks it is given. *)
Theorem compareElement_notifies_A_twice (n : nat) :
  compareElement (Some samples.client0) samples.only_A_finished (2 + n)
    samples.compared_with_A_B
  = (Completed,
     [regressionCall_of samples.compared_with_A_B samples.A;
      regressionCall_of samples.compared_with_A_B samples.A]).
Proof. destruct n; reflexivity. Qed.

Lemma compareElement_range_all_matched tick done_ sent :
  compareElement_range (Some samples.client0) samples.C_finishes_later (S tick)
    samples.compared_with_A_B_C [samples.A; samples.B; samples.C] done_ sent
  = (None, done_ + 1 + 1 + 1,
     ((sent ++ [regressionCall_of samples.compared_with_A_B_C samples.A])
        ++ [regressionCall_of samples.compared_with_A_B_C samples.B])
        ++ [regressionCall_of samples.compared_with_A_B_C samples.C]).
Proof. reflexivity. Qed.

(** Once [done] has passed the number of targets, the loop condition
    [done != len(element.compareWith)] stays true. *)
Lemma compareElement_loop_overshoot ticks : ∀ tick done_ sent,
  3 < done_ →
  (compareElement_loop (Some samples.client0) samples.C_finishes_later ticks (S tick)
     samples.compared_with_A_B_C done_ sent).1 = StillPolling.
Proof.
  induction ticks as [|ticks IH]; intros tick done_ sent Hdone.
  - cbn. case_decide as Hd; [done|]. cbn in Hd. lia.
  - cbn [compareElement_loop]. case_decide as Hd; [|cbn in Hd; lia].
    change (compareWith samples.compared_with_A_B_C)
      with [samples.A; samples.B; samples.C].
    rewrite compareElement_range_all_matched.
    apply IH. lia.
Qed.

(** C6, at the failing inputs. Compared with A and B while only A is
    ever Finished, the comparator ends after the second poll tick
    although B is matched at no tick. Compared with A, B and C, where A
    and B are Finished during the first tick and C from the second tick
    on, every target is matched from the second tick on and yet the
    comparator never ends. *)
Theorem compareElement_end_ignores_targets :
  (∀ n, (compareElement (Some samples.client0) samples.only_A_finished (2 + n)
           samples.compared_with_A_B).1 = Completed)
  ∧ (∀ tick, ¬ matched (Some samples.client0) samples.only_A_finished tick samples.B)
  ∧ (∀ tick comparer,
       comparer ∈ compareWith samples.compared_with_A_B_C →
       matched (Some samples.client0) samples.C_finishes_later (S tick) comparer)
  ∧ (∀ ticks, (compareElement (Some samples.client0) samples.C_finishes_later ticks
                 samples.compared_with_A_B_C).1 = StillPolling).
Proof.
  split; [|split; [|split]].
  - intros n. by destruct n.
  - intros tick Hm. by apply Hm.
  - intros tick comparer Hin.
    cbn in Hin.
    apply elem_of_cons in Hin as [->|Hin]; [by intros [=]|].
    apply elem_of_cons in Hin as [->|Hin]; [by intros [=]|].
    apply list_elem_of_singleton in Hin as ->. by intros [=].
  - intros [|ticks]; [reflexivity|].
    unfold compareElement. cbn [compareElement_loop].
    case_decide as Hd; [|by cbn in Hd].
    change (compareElement_range (Some samples.client0) samples.C_finishes_later 0
              samples.compared_with_A_B_C
              (compareWith samples.compared_with_A_B_C) 0 [])
      with (@None error, 2,
            [regressionCall_of samples.compared_with_A_B_C samples.A;
             regressionCall_of samples.compared_with_A_B_C samples.B]).
    cbn beta iota.
    destruct ticks as [|ticks]; [reflexivity|].
    cbn [compareElement_loop]. case_decide as Hd'; [|by cbn in Hd'].
    change (compareWith samples.compared_with_A_B_C)
      with [samples.A; samples.B; samples.C].
    rewrite compareElement_range_all_matched.
    apply compareElement_loop_overshoot. lia.
Qed.

Lemma A_running_reachable : reachable 1 samples.A_running.
Proof.
  unfold reachable.
  apply rtc_l with samples.A_submitted.
  { by apply (step_submit 1 initial 0%nat samples.element_A). }
  apply rtc_once.
  apply (step_tick 1 samples.A_submitted [0%nat] samples.A_dispatched (Some 0%nat)).
  - by vm_compute.
  - reflexivity.
Defined.

Lemma currentCountExec_bounded_witness :
  0 ≤ currentCountExec (sched samples.A_running) ≤ 1.
Proof.
  apply (currentCountExec_bounded 1 samples.A_running).
  - lia.
  - exact A_running_reachable.
Defined.

End server_properties.

(** ** Further properties of package [exec] *)
Section exec_lifecycle.
Import mysql exec vocabulary.

Lemma Prepare_nil_cases env e db e' db' :
  Prepare env e db = (None, e', db') →
  (prepared e = true ∧ e' = e ∧ db' = db)
  ∨ (prepared e = false
     ∧ ∃ c now d,
         mysql_New env = Ok c ∧ insert_created env = Done now
         ∧ prepareDirectories env = Ok d ∧ Infra_Prepare env = None
         ∧ db' = {| rows := rows db ++ [created_row e];
                    journal := journal db ++ [(insert_of e, true)] |}
         ∧ prepared e' = true ∧ clientDB e' = Some c
         ∧ ExtraVars e' = Some (statsRemoteDBConfig e)
         ∧ dirPath e' = d
         ∧ UUID e' = UUID e ∧ Source e' = Source e ∧ GitRef e' = GitRef e
         ∧ typeOf e' = typeOf e
         ∧ configPath e' = (if decide (configPath e = "")
                            then viper_ConfigFileUsed env else configPath e)).
Proof.
  unfold Prepare. destruct (prepared e) eqn:Hp.
  { intros [= <- <-]. by left. }
  intros HP. right. split; [done|].
  destruct (mysql_New env) as [c|er]; [|done].
  destruct (insert_created env) as [now|er]; [|done]. cbn in HP.
  destruct (prepareDirectories env) as [d|er]; [|done].
  destruct (Infra_Prepare env) as [er|]; [done|].
  exists c, now, d. simplify_eq/=.
  repeat (split; [done|]).
  by case_decide.
Qed.

(** A successful first [Prepare] adds exactly one record, the Created
    record of the run, after the rows the store had, and sends exactly
    the INSERT; it leaves the [Exec] prepared with a client and an
    allocated variable map, and keeps a configuration path that was
    already set. *)
Theorem Prepare_success_one_record env e db e' db' :
  prepared e = false →
  Prepare env e db = (None, e', db') →
  rows db' = rows db ++ [created_row e]
  ∧ journal db' = journal db ++ [(insert_of e, true)]
  ∧ prepared e' = true
  ∧ is_Some (clientDB e')
  ∧ is_Some (ExtraVars e')
  ∧ UUID e' = UUID e
  ∧ (configPath e ≠ "" → configPath e' = configPath e).
Proof.
  intros Hp HP.
  destruct (Prepare_nil_cases env e db e' db' HP)
    as [(Hp' & _)|(_ & c & now & d & _ & _ & _ & _ & -> & Hq & Hc & Hv & _ & Hu & _ & _ & _ & Hcp)];
    [congruence|].
  cbn. rewrite Hc, Hv, Hcp. repeat (split; [by eauto|]).
  intros Hne. by rewrite decide_False.
Qed.

Lemma Prepare_success_one_record_witness :
  rows (Prepare samples.all_prepared samples.fresh_exec samples.empty_db).2
  = [created_row samples.fresh_exec].
Proof.
  pose proof (Prepare_success_one_record samples.all_prepared samples.fresh_exec
                samples.empty_db _ _ eq_refl eq_refl) as [Hrows _].
  exact Hrows.
Defined.

(** Once [Prepare] has returned nil, a further call is a no-op whatever
    the outside world would answer: it returns nil, sends nothing and
    changes neither the [Exec] nor the store, so a run is inserted once. *)
Theorem Prepare_idempotent env env2 e db e' db' :
  Prepare env e db = (None, e', db') →
  Prepare env2 e' db' = (None, e', db').
Proof.
  intros HP.
  assert (prepared e' = true) as Hp'.
  { destruct (Prepare_nil_cases env e db e' db' HP)
      as [(Hp & -> & _)|(_ & c & now & d & H)]; [done|]. apply H. }
  unfold Prepare. by rewrite Hp'.
Qed.

Lemma Prepare_idempotent_witness :
  let r := Prepare samples.all_prepared samples.fresh_exec samples.empty_db in
  Prepare samples.mkdir_fails r.1.2 r.2 = (None, r.1.2, r.2).
Proof.
  cbv zeta.
  apply (Prepare_idempotent samples.all_prepared samples.mkdir_fails
           samples.fresh_exec samples.empty_db).
  reflexivity.
Defined.

Lemma same_run_refl r : same_run r r.
Proof. by repeat split. Qed.

Lemma touches_only_refl u t : touches_only u t t.
Proof.
  split; [done|]. intros i r Hi. exists r. split; [done|]. split; [apply same_run_refl|done].
Qed.

Lemma touches_only_trans u t1 t2 t3 :
  touches_only u t1 t2 → touches_only u t2 t3 → touches_only u t1 t3.
Proof.
  intros [Hl1 H1] [Hl2 H2]. split; [congruence|].
  intros i r Hi.
  destruct (H1 i r Hi) as (r1 & Hi1 & Hs1 & Hk1).
  destruct (H2 i r1 Hi1) as (r2 & Hi2 & Hs2 & Hk2).
  exists r2. split; [done|].
  destruct Hs1 as (Hu1 & ? & ? & ? & ? & ?), Hs2 as (Hu2 & ? & ? & ? & ? & ?).
  split; [repeat split; congruence|].
  intros Hne. rewrite Hk2 by congruence. by apply Hk1.
Qed.

Lemma touches_only_fmap u (g : Row → Row) t :
  (∀ r, same_run r (g r)) →
  touches_only u t ((λ r, if decide (uuid r = u) then g r else r) <$> t).
Proof.
  intros Hg. split; [by rewrite length_fmap|].
  intros i r Hi. rewrite list_lookup_fmap, Hi. cbn.
  eexists. split; [done|].
  case_decide; [|split; [apply same_run_refl|done]].
  split; [apply Hg|done].
Qed.

(** Either update statement of [Execute] rewrites rows of its run only. *)
Lemma Insert_update_touches_only c a q db u :
  (∃ st, q = UpdateStarted st u) ∨ (∃ st, q = UpdateFinished st u) →
  touches_only u (rows db) (rows (Insert c a q db).1).
Proof.
  intros Hq.
  destruct (Insert_rows c a q db) as [->|(now & _ & _ & ->)];
    [apply touches_only_refl|].
  destruct Hq as [[st ->]|[st ->]]; cbn; by apply touches_only_fmap.
Qed.

Lemma Execute_body_touches_only env e db :
  touches_only (UUID e) (rows db) (rows (Execute_body env e db).2).
Proof.
  unfold Execute_body.
  destruct (negb (prepared e)); [apply touches_only_refl|].
  pose proof (Insert_update_touches_only (clientDB e) (update_started env)
                (UpdateStarted StatusStarted (UUID e)) db (UUID e)) as HI.
  destruct (Insert _ _ _ db) as [db1 o]. cbn in HI.
  assert (touches_only (UUID e) (rows db) (rows db1)) as Ht by (apply HI; eauto).
  repeat (case_match; cbn; try done).
Qed.

(** [Execute] never adds or removes a record and never rewrites the
    record of another run: the table keeps its length, the rows of other
    UUIDs are exactly as before, and a row of the run itself keeps every
    identifying column. *)
Theorem Execute_touches_own_record_only env e db :
  touches_only (UUID e) (rows db) (rows (Execute env e db).2).
Proof.
  pose proof (Execute_body_touches_only env e db) as Hb.
  destruct (Execute_body_keeps_identity env e db) as [Hu Hc].
  unfold Execute.
  destruct (Execute_body env e db) as [[[c err] e1] db1]. cbn in *.
  eapply touches_only_trans; [exact Hb|].
  unfold Execute_deferred. rewrite <- Hu.
  apply Insert_update_touches_only. eauto.
Qed.

(** [Execute] returns nil exactly when the [Exec] is prepared with a
    client and a variable map, the store executes the update to Started,
    and provisioning, both rewritings of the Ansible files and the run
    step all succeed. The outcome of the deferred update plays no part. *)
Theorem Execute_returns_nil_iff env e db :
  (Execute env e db).1.1 = Returned None
  ↔ prepared e = true
    ∧ is_Some (clientDB e)
    ∧ (∃ now, update_started env = Done now)
    ∧ (∃ IPs, provision env = Ok IPs)
    ∧ AddIPsToFiles env = None
    ∧ AddLocalConfigPathToFiles env = None
    ∧ is_Some (ExtraVars e)
    ∧ Infra_Run env = RunNil.
Proof.
  unfold Execute, Execute_body.
  destruct (prepared e); cbn; [|split; [done|by intros [? _]]].
  destruct (clientDB e) as [c|]; cbn;
    [|split; [done|by intros (_ & [? ?] & _)]].
  destruct (update_started env) as [now|er]; cbn;
    [|split; [done|by intros (_ & _ & [? ?] & _)]].
  destruct (provision env) as [IPs|er]; cbn;
    [|split; [done|by intros (_ & _ & _ & [? ?] & _)]].
  destruct (AddIPsToFiles env) as [er|]; cbn;
    [split; [done|by intros (_ & _ & _ & _ & ? & _)]|].
  destruct (AddLocalConfigPathToFiles env) as [er|]; cbn;
    [split; [done|by intros (_ & _ & _ & _ & _ & ? & _)]|].
  destruct (ExtraVars e) as [vars|]; cbn;
    [|split; [done|by intros (_ & _ & _ & _ & _ & _ & [? ?] & _)]].
  destruct (Infra_Run env) as [|er|v]; cbn.
  - split; [|done]. intros _. repeat split; eauto.
  - split; [done|by intros (_ & _ & _ & _ & _ & _ & _ & ?)].
  - split; [done|by intros (_ & _ & _ & _ & _ & _ & _ & ?)].
Qed.

(** When [Execute] returns nil, the variables handed to Ansible hold the
    UUID, the git reference and the source of the run under their three
    keys, and every other variable is as [Prepare] left it. *)
Theorem Execute_nil_sets_ExtraVars env e db e' db' :
  Execute env e db = (Returned None, e', db') →
  ∃ vars vars',
    ExtraVars e = Some vars ∧ ExtraVars e' = Some vars'
    ∧ vars' !! keyExecUUID = Some (UUID e)
    ∧ vars' !! keyVitessVersion = Some (GitRef e)
    ∧ vars' !! keyExecSource = Some (Source e)
    ∧ ∀ k, k ≠ keyExecUUID → k ≠ keyVitessVersion → k ≠ keyExecSource →
           vars' !! k = vars !! k.
Proof.
  unfold Execute, Execute_body. intros HE.
  repeat (case_match; simplify_eq/=).
  eexists _, _. split; [done|]. split; [done|].
  split; [|split; [|split]].
  - rewrite !lookup_insert_ne by done. apply lookup_insert_eq.
  - rewrite lookup_insert_ne by done. apply lookup_insert_eq.
  - apply lookup_insert_eq.
  - intros k Hk1 Hk2 Hk3. by rewrite !lookup_insert_ne.
Qed.

Lemma Execute_nil_sets_ExtraVars_witness :
  ∃ vars',
    ExtraVars (Execute samples.all_fine samples.prepared_exec samples.created_db).1.2
      = Some vars'
    ∧ vars' !! keyExecUUID = Some "6f1c2a9e-0001".
Proof.
  destruct (Execute_nil_sets_ExtraVars samples.all_fine samples.prepared_exec
              samples.created_db _ _ eq_refl)
    as (vars & vars' & _ & Hv' & Hu & _).
  exists vars'. split; [exact Hv'|exact Hu].
Defined.

Lemma fmap_update_other_run (g : Row → Row) u (t : list Row) :
  (∀ r, r ∈ t → uuid r ≠ u) →
  (λ r, if decide (uuid r = u) then g r else r) <$> t = t.
Proof.
  intros Hne. induction t as [|r t IH]; [done|].
  cbn. rewrite decide_False by (apply Hne; by left).
  f_equal. apply IH. intros r' Hr'. apply Hne. by right.
Qed.

(** The life of a record: an [Exec] whose UUID is new to the store is
    prepared and then executed while the store executes both updates at
    times [t1] and [t2]. Afterwards the store holds the rows it had,
    unchanged, followed by the one record of the run, with both
    timestamps and with status Failed when [Execute] returned an error
    and Finished otherwise. *)
Theorem Prepare_then_Execute_record envP envE e db e1 db1 t1 t2 :
  prepared e = false →
  (∀ r, r ∈ rows db → uuid r ≠ UUID e) →
  Prepare envP e db = (None, e1, db1) →
  update_started envE = Done t1 →
  update_terminal envE = Done t2 →
  rows (Execute envE e1 db1).2
  = rows db ++ [executed_row e (status_of_exit (Execute envE e1 db1).1.1) t1 t2].
Proof.
  intros Hp Hfresh HP Hs Ht.
  destruct (Prepare_nil_cases envP e db e1 db1 HP)
    as [(Hp' & _)|(_ & c & now & d & _ & _ & _ & _ & -> & Hq & Hc & Hv & _ & Hu & Hsrc & Hg & Hty & _)];
    [congruence|].
  unfold Execute, Execute_body, Execute_deferred.
  rewrite Hq, Hc, Hs, Hv, Hu. cbn.
  rewrite fmap_app, (fmap_update_other_run _ _ (rows db)) by done.
  cbn. rewrite decide_True by done.
  destruct (provision envE) as [IPs|er]; cbn.
  2:{ rewrite Hc, Ht, Hu. cbn.
      rewrite fmap_app, (fmap_update_other_run _ _ (rows db)) by done.
      cbn. rewrite decide_True by done. done. }
  destruct (AddIPsToFiles envE) as [er|]; cbn.
  { rewrite Hc, Ht, Hu. cbn.
    rewrite fmap_app, (fmap_update_other_run _ _ (rows db)) by done.
    cbn. rewrite decide_True by done. done. }
  destruct (AddLocalConfigPathToFiles envE) as [er|]; cbn.
  { rewrite Hc, Ht, Hu. cbn.
    rewrite fmap_app, (fmap_update_other_run _ _ (rows db)) by done.
    cbn. rewrite decide_True by done. done. }
  destruct (Infra_Run envE) as [|er|v]; cbn; rewrite Hc, Ht, Hu; cbn;
    rewrite fmap_app, (fmap_update_other_run _ _ (rows db)) by done;
    cbn; rewrite decide_True by done; done.
Qed.

Lemma Prepare_then_Execute_record_witness :
  let r := Prepare samples.all_prepared samples.fresh_exec samples.empty_db in
  rows (Execute samples.all_fine r.1.2 r.2).2
  = [executed_row samples.fresh_exec StatusFinished 100 200].
Proof.
  assert (∀ r, r ∈ rows samples.empty_db → uuid r ≠ UUID samples.fresh_exec) as Hfresh.
  { intros r Hr. by apply elem_of_nil in Hr. }
  exact (Prepare_then_Execute_record samples.all_prepared samples.all_fine
           samples.fresh_exec samples.empty_db _ _ 100 200
           eq_refl Hfresh eq_refl eq_refl eq_refl).
Defined.

End exec_lifecycle.


(** ** Further properties of package [server] *)
Section server_queue.
Import mysql server vocabulary.

(** [Exists] answers true exactly when the select succeeds and some row
    of the store has the given status, git reference, type and source;
    it never answers true together with an error. *)
Theorem Exists_true_iff clientDB fault db gitRef src typeOf st :
  ((exec.Exists clientDB fault db gitRef src typeOf st).1 = true
   ↔ is_Some clientDB ∧ fault = None
     ∧ ∃ r, r ∈ rows db ∧ status r = st ∧ git_ref r = gitRef
            ∧ type_ r = typeOf ∧ source r = src)
  ∧ ((exec.Exists clientDB fault db gitRef src typeOf st).1 = true →
     (exec.Exists clientDB fault db gitRef src typeOf st).2 = None).
Proof.
  unfold exec.Exists, Select.
  destruct clientDB as [c|]; cbn.
  2:{ split; [|done]. split; [done|]. by intros [[? ?] _]. }
  destruct fault as [er|]; cbn.
  { split; [|done]. split; [done|]. by intros (_ & ? & _). }
  split; [|done].
  rewrite Next_true_iff, select_exists_nonempty. unfold matches_exists.
  split.
  - intros (r & Hr & Hm). split; [by eexists|]. split; [done|]. by exists r.
  - intros (_ & _ & r & Hr & Hm). by exists r.
Qed.

(** [checkIfExecutionExists] never answers true together with an error;
    for an identifier that is not micro it answers true only when
    [ExistsMacrobenchmark], asked about Finished runs with the git
    reference, source, type and planner version of the identifier,
    answers true without an error. *)
Theorem checkIfExecutionExists_true dbClient ExistsMacrobenchmark fault db identifier :
  ((checkIfExecutionExists dbClient ExistsMacrobenchmark fault db identifier).1 = true →
   (checkIfExecutionExists dbClient ExistsMacrobenchmark fault db identifier).2 = None)
  ∧ (BenchmarkType identifier ≠ "micro" →
     ((checkIfExecutionExists dbClient ExistsMacrobenchmark fault db identifier).1 = true
      ↔ ExistsMacrobenchmark dbClient (fault exec.StatusFinished) db
          (GitRef identifier) (Source identifier) (BenchmarkType identifier)
          exec.StatusFinished (PlannerVersion identifier) = (true, None))).
Proof.
  unfold checkIfExecutionExists, checkStatus, checkIfExecutionExists_range. cbn.
  split.
  - by repeat (case_match; cbn).
  - intros Hmacro. rewrite decide_False by done.
    destruct (ExistsMacrobenchmark _ _ _ _ _ _ _ _) as [[|] [er|]]; cbn;
      split; done.
Qed.

Lemma checkIfExecutionExists_true_witness :
  (checkIfExecutionExists (Some samples.client0) samples.no_macrobenchmark
     (λ _, None) samples.pr41_finished_db samples.pr42).2 = None.
Proof.
  apply (checkIfExecutionExists_true (Some samples.client0) samples.no_macrobenchmark
           (λ _, None) samples.pr41_finished_db samples.pr42).
  reflexivity.
Defined.

(** An element that a tick has dispatched is never dispatched by a later
    tick on that state, whatever the ceiling and the order of the map:
    the [executing] flag keeps it from being executed twice. *)
Theorem tick_never_dispatches_again maxConcurJob order s s' p :
  cronExecutionQueueWatcher_tick maxConcurJob order s = (s', Some p) →
  ∀ maxConcurJob2 order2,
    (cronExecutionQueueWatcher_tick maxConcurJob2 order2 s').2 ≠ Some p.
Proof.
  intros Htick max2 order2.
  assert (∃ element, heap s' !! p = Some element ∧ executing element = true)
    as (element' & Hp' & He').
  { unfold cronExecutionQueueWatcher_tick in Htick.
    destruct (currentCountExec s >=? maxConcurJob); [done|].
    destruct (cronExecutionQueueWatcher_range_spec order s)
      as [[Hr _]|(p0 & element & _ & _ & _ & Hr)];
      rewrite Hr in Htick; simplify_eq/=.
    eexists. by rewrite lookup_insert_eq. }
  unfold cronExecutionQueueWatcher_tick.
  destruct (currentCountExec s' >=? max2); [done|].
  destruct (cronExecutionQueueWatcher_range_spec order2 s')
    as [[-> _]|(p2 & element2 & _ & Hp2 & He2 & ->)]; [done|].
  cbn. intros [= ->]. congruence.
Qed.

Lemma tick_never_dispatches_again_witness :
  (cronExecutionQueueWatcher_tick 5 [0%nat] samples.A_dispatched).2 ≠ Some 0%nat.
Proof.
  apply (tick_never_dispatches_again 1 [0%nat] (sched samples.A_submitted)
           samples.A_dispatched 0%nat).
  reflexivity.
Defined.

Lemma running_cons_exec p gs : running (GoExecuteElement p :: gs) = p :: running gs.
Proof. done. Qed.

Lemma running_app gs1 gs2 : running (gs1 ++ gs2) = running gs1 ++ running gs2.
Proof. unfold running. apply omap_app. Qed.

Lemma NoDup_drop_middle {A} (l1 l2 : list A) x :
  NoDup (l1 ++ x :: l2) → NoDup (l1 ++ l2).
Proof.
  rewrite !NoDup_app, NoDup_cons. intros (H1 & H12 & _ & H2).
  split; [done|]. split; [|done].
  intros y Hy Hy2. apply (H12 y Hy). by right.
Qed.

Section with_ceiling.
Variable maxConcurJob : Z.

Lemma exclusive_step σ σ' :
  step maxConcurJob σ σ' → exclusive σ → exclusive σ'.
Proof.
  unfold exclusive.
  intros Hstep [Hnd Hflag].
  destruct Hstep as [σ order s' spawned _ Htick
                    |σ gs1 gs2 p element Hpool Hp _
                    |σ gs1 gs2 p element Hpool Hp _
                    |σ gs1 gs2 p element Hpool Hp _
                    |σ gs1 gs2 Hpool
                    |σ gs1 gs2 p element Hpool Hp
                    |σ p element _ Hfresh]; cbn.
  - unfold cronExecutionQueueWatcher_tick in Htick.
    assert (s' = sched σ ∧ spawned = None
            ∨ ∃ p element, heap (sched σ) !! p = Some element
                           ∧ executing element = false
                           ∧ s' = dispatched p element (sched σ)
                           ∧ spawned = Some p) as [[-> ->]|(p & element & Hp & He & -> & ->)].
    { destruct (currentCountExec (sched σ) >=? maxConcurJob).
      { injection Htick as <- <-. left. split; reflexivity. }
      destruct (cronExecutionQueueWatcher_range_spec order (sched σ))
        as [[Hr _]|(p & element & _ & Hp & He & Hr)];
        rewrite Hr in Htick; injection Htick as <- <-.
      - left. split; reflexivity.
      - right. exists p, element. repeat split; done. }
    + cbn. by rewrite app_nil_r.
    + cbn. rewrite running_app. cbn.
      assert (p ∉ running (pool σ)) as Hnew.
      { intros Hin. destruct (Hflag p Hin) as (e0 & He0 & Hex). congruence. }
      split.
      * apply NoDup_app. split; [done|]. split; [|apply NoDup_singleton].
        intros q Hq Hqp%list_elem_of_singleton. by subst q.
      * intros q [Hq|Hqp%list_elem_of_singleton]%elem_of_app.
        -- rewrite lookup_insert_ne by (intros ->; done). by apply Hflag.
        -- subst q. rewrite lookup_insert_eq. by eexists.
  - rewrite Hpool, running_app, running_cons_exec in Hnd, Hflag.
    rewrite running_app. cbn. fold (running gs2).
    split; [by eapply NoDup_drop_middle|].
    intros q Hq. apply Hflag.
    apply elem_of_app in Hq as [Hq|Hq]; apply elem_of_app; [by left|right; by right].
  - rewrite Hpool in *. split; [done|].
    intros q Hq. destruct (Hflag q Hq) as (e0 & He0 & Hex).
    destruct (decide (q = p)) as [->|Hne].
    + rewrite lookup_insert_eq. eexists. split; [done|]. cbn. congruence.
    + rewrite lookup_insert_ne by done. eauto.
  - rewrite Hpool, running_app, running_cons_exec in Hnd, Hflag.
    rewrite running_app. cbn. fold (running (gs2 ++ [GoCompare p])).
    rewrite running_app. cbn. rewrite app_nil_r.
    split; [by eapply NoDup_drop_middle|].
    intros q Hq. apply Hflag.
    apply elem_of_app in Hq as [Hq|Hq]; apply elem_of_app; [by left|right; by right].
  - rewrite Hpool, running_app in Hnd, Hflag. cbn in Hnd, Hflag.
    fold (running gs2) in Hnd, Hflag. rewrite running_app. done.
  - rewrite Hpool, running_app in Hnd, Hflag. cbn in Hnd, Hflag.
    fold (running gs2) in Hnd, Hflag. rewrite running_app. done.
  - split; [done|].
    intros q Hq. destruct (Hflag q Hq) as (e0 & He0 & Hex).
    rewrite lookup_insert_ne by congruence. eauto.
Qed.

(** In every state that the goroutines can reach, in any interleaving,
    no element is being executed by two goroutines at once, and every
    element being executed has its [executing] flag set. *)
Theorem no_element_executed_twice σ :
  reachable maxConcurJob σ → exclusive σ.
Proof.
  intros Hreach.
  apply (rtc_ind_r (R := step maxConcurJob) exclusive initial); [..|exact Hreach].
  - split; [apply NoDup_nil_2|]. by intros p Hp%elem_of_nil.
  - intros σ1 σ2 _ Hstep IH. by eapply exclusive_step.
Qed.

End with_ceiling.

Lemma no_element_executed_twice_witness : exclusive samples.A_running.
Proof.
  apply (no_element_executed_twice 1 samples.A_running).
  exact A_running_reachable.
Defined.

End server_queue.

(** ** Further properties of [executeElement] and [compareElement] *)
Section server_goroutines.
Import mysql server vocabulary.

Lemma count_events_cons f ev tr :
  count_events f (ev :: tr) = ((if f ev then 1 else 0) + count_events f tr)%nat.
Proof.
  unfold count_events. destruct (f ev) eqn:Hf.
  - by rewrite filter_cons_True.
  - rewrite filter_cons_False by (by rewrite Hf). done.
Qed.

Lemma set_retry_same element : set_retry (retry element) element = element.
Proof. by destruct element. Qed.

Section with_executeSingle.
Variable executeSingle : list Event → string → executionIdentifier → option error.

Lemma executeElement_any_outcome (n : nat) : ∀ s tr p element,
  heap s !! p = Some element →
  Z.to_nat (retry element + 1) = n →
  ∃ evs,
    (executeElement executeSingle s tr p).2 = tr ++ evs
    ∧ currentCountExec (executeElement executeSingle s tr p).1 = currentCountExec s - 1
    ∧ count_events is_decrement evs = 1%nat
    ∧ (count_events is_attempt evs ≤ n)%nat
    ∧ (count_events is_compare evs = 1%nat
       ∧ queue (executeElement executeSingle s tr p).1 = queue s
       ∨ count_events is_compare evs = 0%nat
         ∧ queue (executeElement executeSingle s tr p).1
           = delete (identifier element) (queue s)).
Proof.
  induction n as [|n IH]; intros s tr p element Hp Hn;
    rewrite executeElement_eq, Hp.
  - rewrite bool_decide_eq_true_2 by lia.
    destruct (queue s !! identifier element) eqn:Hq; cbn.
    + exists [EvDelete (identifier element); EvDecrement].
      split; [done|]. split; [done|]. split; [done|]. split; [done|]. by right.
    + exists [EvDecrement].
      split; [done|]. split; [done|]. split; [done|]. split; [done|].
      right. split; [done|]. by rewrite delete_id.
  - rewrite bool_decide_eq_false_2 by lia.
    destruct (executeSingle tr (config element) (identifier element)) eqn:He; cbn.
    + destruct (IH (set_heap (<[p := set_retry (retry element - 1) element]> (heap s)) s)
                  (tr ++ [EvExecuteSingle (config element) (identifier element)])
                  p (set_retry (retry element - 1) element))
        as (evs & Htr & Hc & Hd & Ha & Hq).
      { cbn. apply lookup_insert_eq. }
      { cbn. lia. }
      exists (EvExecuteSingle (config element) (identifier element) :: evs).
      rewrite Htr, Hc, <- app_assoc, !count_events_cons. cbn in *.
      split; [done|]. split; [done|]. split; [done|]. split; [lia|]. done.
    + exists [EvExecuteSingle (config element) (identifier element);
              EvGoCompare p; EvDecrement].
      split; [done|]. split; [done|]. split; [done|].
      split; [|by left].
      change (count_events is_attempt _) with 1%nat. lia.
Qed.

(** Whatever the attempts of an element answer, its goroutine releases
    its slot exactly once, makes at most [retry + 1] attempts (none when
    the element was queued with a negative budget) and starts at most one
    comparator. When it starts one the queue is left as it was (the
    comparator removes the element later); otherwise the element has left
    the queue when the goroutine ends. *)
Theorem executeElement_releases_once s tr p element :
  heap s !! p = Some element →
  ∃ evs,
    (executeElement executeSingle s tr p).2 = tr ++ evs
    ∧ currentCountExec (executeElement executeSingle s tr p).1 = currentCountExec s - 1
    ∧ count_events is_decrement evs = 1%nat
    ∧ (count_events is_attempt evs ≤ Z.to_nat (retry element + 1))%nat
    ∧ (count_events is_compare evs = 1%nat
       ∧ queue (executeElement executeSingle s tr p).1 = queue s
       ∨ count_events is_compare evs = 0%nat
         ∧ queue (executeElement executeSingle s tr p).1
           = delete (identifier element) (queue s)).
Proof. intros Hp. by eapply executeElement_any_outcome. Qed.

Lemma executeElement_succeeds_after (k : nat) : ∀ s tr p element,
  heap s !! p = Some element →
  Z.of_nat k ≤ retry element →
  (∀ j, (j < k)%nat →
        executeSingle
          (tr ++ replicate j (EvExecuteSingle (config element) (identifier element)))
          (config element) (identifier element) ≠ None) →
  executeSingle
    (tr ++ replicate k (EvExecuteSingle (config element) (identifier element)))
    (config element) (identifier element) = None →
  executeElement executeSingle s tr p
  = ({| heap := <[p := set_retry (retry element - Z.of_nat k) element]> (heap s);
        queue := queue s;
        currentCountExec := currentCountExec s - 1 |},
     tr ++ replicate (S k) (EvExecuteSingle (config element) (identifier element))
        ++ [EvGoCompare p; EvDecrement]).
Proof.
  induction k as [|k IH]; intros s tr p element Hp Hk Hfail Hok;
    rewrite executeElement_eq, Hp, bool_decide_eq_false_2 by lia.
  - cbn in Hok. rewrite app_nil_r in Hok. rewrite Hok.
    replace (retry element - Z.of_nat 0) with (retry element) by lia.
    rewrite set_retry_same, insert_id by done.
    destruct s. done.
  - pose proof (Hfail O ltac:(lia)) as H0. cbn in H0. rewrite app_nil_r in H0.
    destruct (executeSingle tr (config element) (identifier element)) eqn:He; [|done].
    rewrite (IH _ _ _ (set_retry (retry element - 1) element)); cbn.
    + rewrite insert_insert_eq, <- app_assoc. cbn.
      replace (retry element - 1 - Z.of_nat k) with (retry element - Z.of_nat (S k))
        by lia.
      reflexivity.
    + apply lookup_insert_eq.
    + lia.
    + intros j Hj. rewrite <- app_assoc. apply (Hfail (S j)). lia.
    + by rewrite <- app_assoc.
Qed.

(** An element whose first [k] attempts fail and whose next attempt
    succeeds, with [k] within its budget: the goroutine makes exactly
    [k + 1] attempts, lowers [retry] by [k], starts the comparator and
    then releases its slot; the queue still holds the element. *)
Theorem executeElement_success_after_failures (k : nat) s tr p element :
  heap s !! p = Some element →
  Z.of_nat k ≤ retry element →
  (∀ j, (j < k)%nat →
        executeSingle
          (tr ++ replicate j (EvExecuteSingle (config element) (identifier element)))
          (config element) (identifier element) ≠ None) →
  executeSingle
    (tr ++ replicate k (EvExecuteSingle (config element) (identifier element)))
    (config element) (identifier element) = None →
  executeElement executeSingle s tr p
  = ({| heap := <[p := set_retry (retry element - Z.of_nat k) element]> (heap s);
        queue := queue s;
        currentCountExec := currentCountExec s - 1 |},
     tr ++ replicate (S k) (EvExecuteSingle (config element) (identifier element))
        ++ [EvGoCompare p; EvDecrement]).
Proof. apply executeElement_succeeds_after. Qed.

End with_executeSingle.

Lemma executeElement_releases_once_witness :
  currentCountExec
    (executeElement samples.always_fails samples.A_dispatched [] 0).1 = 0.
Proof.
  destruct (executeElement_releases_once samples.always_fails samples.A_dispatched []
              0%nat samples.element_A eq_refl) as (evs & _ & Hc & _).
  exact Hc.
Defined.

Lemma executeElement_success_after_failures_witness :
  executeElement samples.fails_once samples.A_dispatched [] 0
  = ({| heap := {[ 0%nat := set_retry 1 samples.element_A ]};
        queue := {[ samples.A := 0%nat ]};
        currentCountExec := 0 |},
     [EvExecuteSingle "/config.yaml" samples.A;
      EvExecuteSingle "/config.yaml" samples.A;
      EvGoCompare 0; EvDecrement]).
Proof.
  rewrite (executeElement_success_after_failures samples.fails_once 1
             samples.A_dispatched [] 0%nat samples.element_A).
  - reflexivity.
  - reflexivity.
  - cbn. lia.
  - intros j Hj. assert (j = O) as -> by lia. done.
  - reflexivity.
Defined.

Section with_dbClient.
Variable dbClient : option Client.

Lemma matched_answer env tick comparer :
  matched dbClient env tick comparer →
  ∃ comparerUUID,
    GetFinishedExecution dbClient (select_fault env tick comparer) (db_at env tick)
      (GitRef comparer) (Source comparer) (BenchmarkType comparer)
      (PlannerVersion comparer) (PullNb comparer) = (comparerUUID, None)
    ∧ comparerUUID ≠ "".
Proof.
  unfold matched, GetFinishedExecution.
  destruct (Select _ _ _ _) as [result|er]; cbn; [|done].
  intros Hne. by eexists.
Qed.

(** The comparers of one tick when each of them is matched and each
    notification succeeds: one call each, in order. *)
Lemma compareElement_range_all env tick element cs : ∀ done_ sent,
  (∀ c, c ∈ cs → matched dbClient env tick c ∧ notify_fault env tick c = None) →
  compareElement_range dbClient env tick element cs done_ sent
  = (None, done_ + Z.of_nat (length cs), sent ++ (regressionCall_of element <$> cs)).
Proof.
  induction cs as [|c cs IH]; intros done_ sent Hall; cbn.
  { by rewrite Z.add_0_r, app_nil_r. }
  destruct (Hall c) as [Hm Hn]; [by left|].
  destruct (matched_answer env tick c Hm) as (u & -> & Hu).
  rewrite decide_True by done. rewrite Hn.
  rewrite IH by (intros c' Hc'; apply Hall; by right).
  rewrite <- app_assoc. f_equal. f_equal. lia.
Qed.

(** The comparers of one tick when none of them is matched. *)
Lemma compareElement_range_none env tick element cs : ∀ done_ sent,
  (∀ c, c ∈ cs → unmatched dbClient env tick c) →
  compareElement_range dbClient env tick element cs done_ sent = (None, done_, sent).
Proof.
  induction cs as [|c cs IH]; intros done_ sent Hall; cbn; [done|].
  unfold unmatched in Hall. rewrite (Hall c) by by left.
  rewrite decide_False by (by intros ?).
  apply IH. intros c' Hc'. apply Hall. by right.
Qed.

Lemma compareElement_loop_done env ticks tick element done_ sent :
  done_ = Z.of_nat (length (compareWith element)) →
  compareElement_loop dbClient env ticks tick element done_ sent = (Completed, sent).
Proof. intros ->. destruct ticks; cbn; by rewrite decide_False by (by intros ?). Qed.

(** When every target already has a Finished run during the first poll
    tick and every notification succeeds, the comparator ends after that
    tick having notified once per target, in the order of
    [compareWith]. *)
Theorem compareElement_all_finished_first_tick env ticks element :
  (∀ c, c ∈ compareWith element →
        matched dbClient env 0 c ∧ notify_fault env 0 c = None) →
  compareElement dbClient env (S ticks) element
  = (Completed, regressionCall_of element <$> compareWith element).
Proof.
  intros Hall. unfold compareElement. cbn [compareElement_loop].
  case_decide as Hd.
  - rewrite compareElement_range_all by done.
    by rewrite compareElement_loop_done by lia.
  - destruct (compareWith element); [done|]. cbn in Hd. lia.
Qed.

Lemma compareElement_loop_S env ticks tick element done_ sent :
  compareElement_loop dbClient env (S ticks) tick element done_ sent
  = if decide (done_ ≠ Z.of_nat (length (compareWith element))) then
      match compareElement_range dbClient env tick element (compareWith element)
              done_ sent with
      | (Some err, _, sent) => (Aborted err, sent)
      | (None, done_, sent) =>
          compareElement_loop dbClient env ticks (S tick) element done_ sent
      end
    else (Completed, sent).
Proof. reflexivity. Qed.

Lemma compareElement_loop_single env element c n (k : nat) : ∀ tick,
  compareWith element = [c] →
  (∀ j, (j < k)%nat → unmatched dbClient env (tick + j) c) →
  matched dbClient env (tick + k) c →
  notify_fault env (tick + k) c = None →
  compareElement_loop dbClient env (S k + n) tick element 0 []
  = (Completed, [regressionCall_of element c]).
Proof.
  induction k as [|k IH]; intros tick Hcw Hun Hm Hn;
    cbn [Nat.add]; rewrite compareElement_loop_S, Hcw;
    (rewrite decide_True by done).
  - rewrite Nat.add_0_r in Hm, Hn.
    rewrite compareElement_range_all.
    2:{ intros c' ->%list_elem_of_singleton. done. }
    apply compareElement_loop_done. by rewrite Hcw.
  - rewrite compareElement_range_none.
    2:{ intros c' ->%list_elem_of_singleton.
        specialize (Hun O ltac:(lia)). by rewrite Nat.add_0_r in Hun. }
    apply IH; [done|..].
    + intros j Hj. replace (S tick + j)%nat with (tick + S j)%nat by lia.
      apply Hun. lia.
    + by replace (S tick + k)%nat with (tick + S k)%nat by lia.
    + by replace (S tick + k)%nat with (tick + S k)%nat by lia.
Qed.

(** With a single target the comparator behaves as intended: it polls
    while the target has no Finished run, and at the first tick that
    finds one it notifies exactly once and ends. *)
Theorem compareElement_single_target env element c (k n : nat) :
  compareWith element = [c] →
  (∀ j, (j < k)%nat → unmatched dbClient env j c) →
  matched dbClient env k c →
  notify_fault env k c = None →
  compareElement dbClient env (S k + n) element
  = (Completed, [regressionCall_of element c]).
Proof.
  intros Hcw Hun Hm Hn.
  by apply (compareElement_loop_single env element c n k O).
Qed.

Lemma compareElement_loop_nothing env element ticks : ∀ tick,
  compareWith element ≠ [] →
  (∀ t c, c ∈ compareWith element → unmatched dbClient env t c) →
  compareElement_loop dbClient env ticks tick element 0 [] = (StillPolling, []).
Proof.
  induction ticks as [|ticks IH]; intros tick Hne Hun; cbn [compareElement_loop];
    (rewrite decide_True by (destruct (compareWith element); [done|cbn; lia])).
  - done.
  - rewrite compareElement_range_none by (intros c Hc; by apply Hun).
    by apply IH.
Qed.

(** While no target has a Finished run the comparator sends nothing and
    keeps polling, for as long as it is observed. *)
Theorem compareElement_waits_silently env ticks element :
  compareWith element ≠ [] →
  (∀ t c, c ∈ compareWith element → unmatched dbClient env t c) →
  compareElement dbClient env ticks element = (StillPolling, []).
Proof. intros Hne Hun. by apply compareElement_loop_nothing. Qed.

Lemma compareElement_range_calls env tick element cs : ∀ done_ sent call,
  call ∈ (compareElement_range dbClient env tick element cs done_ sent).2 →
  call ∈ sent
  ∨ ∃ c, c ∈ cs ∧ matched dbClient env tick c ∧ call = regressionCall_of element c.
Proof.
  induction cs as [|c cs IH]; intros done_ sent call; cbn; [by left|].
  destruct (GetFinishedExecution _ _ _ _ _ _ _ _) as [u [er|]] eqn:HG; cbn; [by left|].
  assert (u ≠ "" → matched dbClient env tick c) as Hm.
  { intros Hu. unfold matched. by rewrite HG. }
  case_decide as Hu.
  - destruct (notify_fault env tick c).
    + cbn. intros [Hin|Hin%list_elem_of_singleton]%elem_of_app; [by left|].
      right. exists c. split; [by left|]. split; [by apply Hm|done].
    + intros [[Hin|Hin%list_elem_of_singleton]%elem_of_app|(c' & Hc' & H')]%IH.
      * by left.
      * right. exists c. split; [by left|]. split; [by apply Hm|done].
      * right. exists c'. split; [by right|done].
  - intros [Hin|(c' & Hc' & H')]%IH; [by left|].
    right. exists c'. split; [by right|done].
Qed.

Lemma compareElement_loop_calls env element ticks : ∀ tick done_ sent call,
  call ∈ (compareElement_loop dbClient env ticks tick element done_ sent).2 →
  call ∈ sent
  ∨ ∃ t c, (tick ≤ t < tick + ticks)%nat ∧ c ∈ compareWith element
           ∧ matched dbClient env t c ∧ call = regressionCall_of element c.
Proof.
  induction ticks as [|ticks IH]; intros tick done_ sent call;
    cbn [compareElement_loop]; case_decide; cbn; try by left.
  pose proof (compareElement_range_calls env tick element (compareWith element)
                done_ sent call) as Hrange.
  destruct (compareElement_range _ _ _ _ _ _ _) as [[[er|] done'] sent']; cbn in *.
  - intros Hin. destruct (Hrange Hin) as [?|(c & Hc & Hm & ->)]; [by left|].
    right. exists tick, c. split; [lia|done].
  - intros [Hin|(t & c & Ht & Hc & Hm & ->)]%IH.
    + destruct (Hrange Hin) as [?|(c & Hc & Hm & ->)]; [by left|].
      right. exists tick, c. split; [lia|done].
    + right. exists t, c. split; [lia|done].
Qed.

(** Every notification that a comparator sends is about one of the
    targets of its element, and is sent during a tick in which that
    target had a Finished run in the store. *)
Theorem compareElement_notifies_matched_targets_only env ticks element call :
  call ∈ (compareElement dbClient env ticks element).2 →
  ∃ t c, (t < ticks)%nat ∧ c ∈ compareWith element
         ∧ matched dbClient env t c ∧ call = regressionCall_of element c.
Proof.
  intros Hin. unfold compareElement in Hin.
  apply compareElement_loop_calls in Hin as [Hin|(t & c & Ht & H)].
  - by apply elem_of_nil in Hin.
  - exists t, c. split; [lia|done].
Qed.

Lemma compareElement_range_counts env tick element cs : ∀ done_ sent done' sent',
  compareElement_range dbClient env tick element cs done_ sent = (None, done', sent') →
  done' - done_ = Z.of_nat (length sent') - Z.of_nat (length sent).
Proof.
  induction cs as [|c cs IH]; intros done_ sent done' sent'; cbn.
  { intros [= <- <-]. lia. }
  destruct (GetFinishedExecution _ _ _ _ _ _ _ _) as [u [er|]]; [done|].
  case_decide.
  - destruct (notify_fault env tick c); [done|].
    intros Hr%IH. rewrite length_app in Hr. cbn in Hr. lia.
  - apply IH.
Qed.

Lemma compareElement_loop_counts env element ticks : ∀ tick done_ sent sent',
  done_ = Z.of_nat (length sent) →
  compareElement_loop dbClient env ticks tick element done_ sent = (Completed, sent') →
  length sent' = length (compareWith element).
Proof.
  induction ticks as [|ticks IH]; intros tick done_ sent sent' Hd;
    cbn [compareElement_loop]; case_decide as Hne; try done.
  - intros [= <-]. lia.
  - destruct (compareElement_range _ _ _ _ _ _ _) as [[[er|] done'] sent1] eqn:Hr;
      [done|].
    apply compareElement_range_counts in Hr.
    apply IH. lia.
  - intros [= <-]. lia.
Qed.

(** A comparator that ends by itself has sent exactly as many
    notifications as its element has targets, whichever targets they
    were about. *)
Theorem compareElement_completed_count env ticks element :
  (compareElement dbClient env ticks element).1 = Completed →
  length (compareElement dbClient env ticks element).2 = length (compareWith element).
Proof.
  intros HC. unfold compareElement in *.
  destruct (compareElement_loop dbClient env ticks 0 element 0 []) as [x sent'] eqn:HL.
  cbn in *. subst x.
  by eapply compareElement_loop_counts in HL.
Qed.

End with_dbClient.

Lemma compareElement_all_finished_first_tick_witness :
  compareElement (Some samples.client0) samples.only_A_finished 1 samples.compared_with_A
  = (Completed, [regressionCall_of samples.compared_with_A samples.A]).
Proof.
  apply (compareElement_all_finished_first_tick (Some samples.client0)
           samples.only_A_finished 0 samples.compared_with_A).
  intros c Hc. apply list_elem_of_singleton in Hc. subst c.
  split; [by intros [=]|reflexivity].
Defined.

Lemma compareElement_single_target_witness :
  compareElement (Some samples.client0) samples.A_finishes_at_2 3 samples.compared_with_A
  = (Completed, [regressionCall_of samples.compared_with_A samples.A]).
Proof.
  apply (compareElement_single_target (Some samples.client0) samples.A_finishes_at_2
           samples.compared_with_A samples.A 2 0).
  - reflexivity.
  - intros j Hj. destruct j as [|[|j]]; [reflexivity|reflexivity|lia].
  - by intros [=].
  - reflexivity.
Defined.

Lemma compareElement_waits_silently_witness :
  compareElement (Some samples.client0) samples.nothing_finishes 10
    samples.compared_with_A_B = (StillPolling, []).
Proof.
  apply (compareElement_waits_silently (Some samples.client0) samples.nothing_finishes
           10 samples.compared_with_A_B).
  - by intros [=].
  - intros t c Hc. reflexivity.
Defined.

Lemma compareElement_notifies_matched_targets_only_witness :
  ∃ t c, (t < 2)%nat ∧ c ∈ compareWith samples.compared_with_A_B
         ∧ matched (Some samples.client0) samples.only_A_finished t c
         ∧ regressionCall_of samples.compared_with_A_B samples.A
           = regressionCall_of samples.compared_with_A_B c.
Proof.
  apply (compareElement_notifies_matched_targets_only (Some samples.client0)
           samples.only_A_finished 2 samples.compared_with_A_B).
  apply list_elem_of_here.
Defined.

Lemma compareElement_completed_count_witness :
  length (compareElement (Some samples.client0) samples.only_A_finished 2
            samples.compared_with_A_B).2 = 2%nat.
Proof.
  apply (compareElement_completed_count (Some samples.client0)
           samples.only_A_finished 2 samples.compared_with_A_B).
  reflexivity.
Defined.

End server_goroutines.


(** ** Prior runs and regression notifications *)
Section notification_properties.
Import mysql exec notification vocabulary.

Lemma started_before_irrefl a : started_before a a = false.
Proof. destruct a; cbn; [lia|done]. Qed.

Lemma started_before_false_trans a b c :
  started_before a b = false → started_before b c = false →
  started_before a c = false.
Proof. destruct a, b, c; cbn; try done; lia. Qed.

Lemma started_before_asym a b :
  started_before a b = true → started_before b a = false.
Proof. destruct a, b; cbn; try done; lia. Qed.

(** ORDER BY started_at DESC LIMIT 1 yields a row of the table that no
    other row of the table follows. *)
Lemma latest_started_Some t r :
  latest_started t = Some r →
  r ∈ t ∧ ∀ r', r' ∈ t → started_before (started_at r) (started_at r') = false.
Proof.
  revert r. induction t as [|r0 t IH]; intros r; cbn; [done|].
  destruct (latest_started t) as [r1|] eqn:Hl.
  - destruct (IH r1 eq_refl) as [Hin Hmax].
    destruct (started_before (started_at r0) (started_at r1)) eqn:Hb;
      intros [= <-].
    + split; [by right|].
      intros r' [->|Hr']%elem_of_cons; [by apply started_before_asym|by apply Hmax].
    + split; [by left|].
      intros r' [->|Hr']%elem_of_cons; [apply started_before_irrefl|].
      eapply started_before_false_trans; [exact Hb|by apply Hmax].
  - intros [= <-]. destruct t as [|r1 t]; [|cbn in Hl; by repeat case_match].
    split; [by left|].
    intros r' ->%list_elem_of_singleton. apply started_before_irrefl.
Qed.

Lemma latest_started_None t : latest_started t = None → t = [].
Proof. destruct t; cbn; [done|by repeat case_match]. Qed.

Lemma select_latest P `{∀ r, Decision (P r)} (t : list Row) :
  (latest_started (filter P t) = None ∧ ∀ r, r ∈ t → ¬ P r)
  ∨ ∃ r, latest_started (filter P t) = Some r ∧ r ∈ t ∧ P r
         ∧ ∀ r', r' ∈ t → P r' → started_before (started_at r) (started_at r') = false.
Proof.
  destruct (latest_started (filter P t)) as [r|] eqn:Hl.
  - right. exists r. split; [done|].
    apply latest_started_Some in Hl as [[HP Hin]%list_elem_of_filter Hmax].
    split; [done|]. split; [done|].
    intros r' Hr' HP'. apply Hmax. by apply list_elem_of_filter.
  - left. split; [done|].
    apply latest_started_None in Hl.
    intros r Hr HP.
    assert (r ∈ filter P t) as Hin by by apply list_elem_of_filter.
    rewrite Hl in Hin. by apply elem_of_nil in Hin.
Qed.

Lemma getPreviousFromSameSource_cases fault e db :
  (∃ err, getPreviousFromSameSource fault e db = ("", "", Some err)
          ∧ (clientDB e = None ∨ fault = Some err))
  ∨ (getPreviousFromSameSource fault e db = ("", "", None)
     ∧ is_Some (clientDB e) ∧ fault = None
     ∧ ∀ r, r ∈ rows db → ¬ is_previous (Source e) (typeOf e) (GitRef e) r)
  ∨ (∃ r, getPreviousFromSameSource fault e db = (uuid r, git_ref r, None)
          ∧ is_Some (clientDB e) ∧ fault = None
          ∧ r ∈ rows db ∧ is_previous (Source e) (typeOf e) (GitRef e) r
          ∧ ∀ r', r' ∈ rows db → is_previous (Source e) (typeOf e) (GitRef e) r' →
                  started_before (started_at r) (started_at r') = false).
Proof.
  unfold getPreviousFromSameSource, SelectRows.
  destruct (clientDB e) as [c|]; [|left; eauto].
  destruct fault as [er|]; [left; eauto|].
  right. unfold select_previous.
  destruct (select_latest (is_previous (Source e) (typeOf e) (GitRef e)) (rows db))
    as [[-> Hno]|(r & -> & Hin & HP & Hmax)]; cbn.
  - left. eauto.
  - right. exists r. eauto 10.
Qed.

(** The prior run that [getPreviousFromSameSource] reports is a Finished
    run of the store with the source and type of the [Exec] and another
    git reference, and no such run started after it; when the store holds
    no such run the result is two empty strings and nil. The git
    reference reported is never the one of the [Exec] itself. *)
Theorem getPreviousFromSameSource_latest_other_commit fault e db execUUID gitRef :
  getPreviousFromSameSource fault e db = (execUUID, gitRef, None) →
  (execUUID = "" ∧ gitRef = ""
   ∧ ∀ r, r ∈ rows db → ¬ is_previous (Source e) (typeOf e) (GitRef e) r)
  ∨ (gitRef ≠ GitRef e
     ∧ ∃ r, r ∈ rows db ∧ uuid r = execUUID ∧ git_ref r = gitRef
            ∧ status r = StatusFinished ∧ source r = Source e ∧ type_ r = typeOf e
            ∧ ∀ r', r' ∈ rows db → is_previous (Source e) (typeOf e) (GitRef e) r' →
                    started_before (started_at r) (started_at r') = false).
Proof.
  intros HG.
  destruct (getPreviousFromSameSource_cases fault e db)
    as [(err & HE & _)|[(HE & _ & _ & Hno)|(r & HE & _ & _ & Hin & HP & Hmax)]];
    rewrite HE in HG; [discriminate HG|injection HG as <- <-..].
  - by left.
  - right. destruct HP as (Hs & Hst & Hty & Hne). split; [done|].
    exists r. by repeat (split; [done|]).
Qed.

Lemma getPreviousFromSameSource_latest_other_commit_witness :
  getPreviousFromSameSource None samples.prepared_exec samples.history_db
  = ("22222222-bbbb", "old222", None)
  ∧ "old222" ≠ GitRef samples.prepared_exec.
Proof.
  split; [reflexivity|].
  destruct (getPreviousFromSameSource_latest_other_commit None samples.prepared_exec
              samples.history_db "22222222-bbbb" "old222" eq_refl)
    as [(Hu & _)|(Hne & _)]; [discriminate Hu|exact Hne].
Defined.

(** [GetLatestCronJobForMicrobenchmarks] reports the git reference of a
    Finished cron run that no other Finished cron run follows; without
    such a run, or when the select fails, it reports the empty string,
    with nil in the first case and the error of the store in the
    second. *)
Theorem GetLatestCronJobForMicrobenchmarks_latest client fault db :
  (∀ err, SelectRows client fault select_latest_cron db = Err err →
          GetLatestCronJobForMicrobenchmarks client fault db = ("", Some err))
  ∧ (∀ result, SelectRows client fault select_latest_cron db = Ok result →
       (GetLatestCronJobForMicrobenchmarks client fault db = ("", None)
        ∧ ∀ r, r ∈ rows db → ¬ is_finished_cron r)
       ∨ ∃ r, GetLatestCronJobForMicrobenchmarks client fault db = (git_ref r, None)
              ∧ r ∈ rows db ∧ source r = "cron" ∧ status r = StatusFinished
              ∧ ∀ r', r' ∈ rows db → is_finished_cron r' →
                      started_before (started_at r) (started_at r') = false).
Proof.
  unfold GetLatestCronJobForMicrobenchmarks. split.
  - by intros err ->.
  - intros result HS. unfold SelectRows in *.
    destruct client as [c|], fault as [er|]; try discriminate HS. clear HS.
    unfold select_latest_cron.
    destruct (select_latest is_finished_cron (rows db))
      as [[-> Hno]|(r & -> & Hin & [Hs Hst] & Hmax)]; cbn.
    + by left.
    + right. exists r. by repeat (split; [done|]).
Qed.

Lemma GetLatestCronJobForMicrobenchmarks_latest_witness :
  GetLatestCronJobForMicrobenchmarks None None samples.history_db
  = ("", Some ErrorClientConnectionNotInitialized).
Proof.
  apply (GetLatestCronJobForMicrobenchmarks_latest None None samples.history_db).
  reflexivity.
Defined.

(** Without a Finished run of the same source and type on another commit
    there is nothing to compare with: [SendNotificationForRegression]
    returns nil and hands nothing to Slack. *)
Theorem SendNotificationForRegression_no_previous env e db :
  is_Some (clientDB e) →
  previous_fault env = None →
  (∀ r, r ∈ rows db → ¬ is_previous (Source e) (typeOf e) (GitRef e) r) →
  SendNotificationForRegression env e db = (Returned None, []).
Proof.
  intros [c Hc] Hf Hno. unfold SendNotificationForRegression.
  destruct (getPreviousFromSameSource_cases (previous_fault env) e db)
    as [(err & HE & [?|?])|[(HE & _)|(r & _ & _ & _ & Hin & HP & _)]];
    [congruence|congruence| |by destruct (Hno r Hin)].
  by rewrite HE.
Qed.

Lemma SendNotificationForRegression_no_previous_witness :
  SendNotificationForRegression samples.regression_found samples.prepared_exec
    samples.created_db = (Returned None, []).
Proof.
  apply SendNotificationForRegression_no_previous.
  - by eexists.
  - reflexivity.
  - intros r ->%list_elem_of_singleton (_ & Hst & _). discriminate Hst.
Defined.

(** One call hands at most one message to Slack. A message is the header
    followed by a regression text that is not empty; it is only sent for
    the types micro, oltp and tpcc, it compares the commit of the [Exec]
    with the different commit of a Finished run of the store, and the
    call returns what Slack answered. *)
Theorem SendNotificationForRegression_at_most_one env e db :
  (SendNotificationForRegression env e db).2 = []
  ∨ ∃ r uuid7 previous7 regression,
      (SendNotificationForRegression env e db).2
        = [regression_header e (git_ref r) uuid7 previous7 +:+ regression]
      ∧ (SendNotificationForRegression env e db).1
        = Returned (slack_Send env
                      (regression_header e (git_ref r) uuid7 previous7 +:+ regression))
      ∧ regression ≠ ""
      ∧ r ∈ rows db ∧ status r = StatusFinished ∧ git_ref r ≠ GitRef e
      ∧ slice_to 7 (uuid r) = Some previous7
      ∧ slice_to 7 (UUID e) = Some uuid7
      ∧ (typeOf e = "micro" ∨ typeOf e = "oltp" ∨ typeOf e = "tpcc").
Proof.
  unfold SendNotificationForRegression.
  destruct (getPreviousFromSameSource_cases (previous_fault env) e db)
    as [(err & -> & _)|[(-> & _)|(r & -> & _ & _ & Hin & (_ & Hst & _ & Hne) & _)]];
    [by left|by left|].
  case_decide; [by left|].
  destruct (slice_to 7 (UUID e)) as [uuid7|] eqn:Hu; [|by left].
  destruct (slice_to 7 (uuid r)) as [previous7|] eqn:Hp; [|by left].
  case_decide as Hmicro.
  { destruct (CompareMicroBenchmarks env (GitRef e) (git_ref r)) as [regression|er];
      [|by left].
    case_decide; [|by left].
    right. exists r, uuid7, previous7, regression. cbn. eauto 12. }
  case_decide as Hmacro; [|by left].
  destruct (influx_NewClient env); [by left|].
  destruct (CompareMacroBenchmarks env (GitRef e) (git_ref r)) as [m|er]; [|by left].
  destruct (m !! typeOf e) as [[|regression l]|]; [by left| |by left].
  case_decide; [|by left].
  right. exists r, uuid7, previous7, regression. cbn.
  repeat (split; [done|]). destruct Hmacro; eauto.
Qed.

(** The message for a micro run with a prior run in the store. *)
Example SendNotificationForRegression_message :
  SendNotificationForRegression samples.regression_found samples.prepared_exec
    samples.history_db
  = (Returned None,
     ["*Observed a regression.*" +:+ newline
      +:+ "Comparing: recent commit <https://github.com/vitessio/vitess/commit/abc123|abc123> with old commit <https://github.com/vitessio/vitess/commit/old222|old222>."
      +:+ newline
      +:+ "Benchmark UUIDs, recent: 6f1c2a9 old: 2222222." +:+ newline +:+ newline
      +:+ newline +:+ "BenchmarkParse: +12%"]).
Proof. reflexivity. Qed.

End notification_properties.

(** ** The local clone of vitess *)
Section vitess_properties.
Import vitess.




(** [pullLocalVitess] runs its commands in the clone directory, the fetch
    first; the hard reset is run exactly when the fetch succeeded, and
    the call returns nil exactly when both succeeded. *)
Theorem pullLocalVitess_fetch_then_reset path_Join env localVitessPath :
  head (pullLocalVitess path_Join env localVitessPath).2
    = Some (fetch_cmd path_Join localVitessPath)
  ∧ (reset_cmd path_Join localVitessPath
       ∈ (pullLocalVitess path_Join env localVitessPath).2
     ↔ ExecCmd env (fetch_cmd path_Join localVitessPath) = None)
  ∧ ((pullLocalVitess path_Join env localVitessPath).1 = None
     ↔ ExecCmd env (fetch_cmd path_Join localVitessPath) = None
       ∧ ExecCmd env (reset_cmd path_Join localVitessPath) = None)
  ∧ (∀ c, c ∈ (pullLocalVitess path_Join env localVitessPath).2 →
          cmd_dir c = getVitessPath path_Join localVitessPath).
Proof.
  unfold pullLocalVitess.
  destruct (ExecCmd env (fetch_cmd path_Join localVitessPath)) as [er|] eqn:Hf; cbn.
  - split; [done|]. split.
    { split; [|done]. intros [=]%list_elem_of_singleton. }
    split; [split; [done|by intros [? _]]|].
    by intros c ->%list_elem_of_singleton.
  - split; [done|]. split.
    { split; [done|]. intros _. right. by left. }
    split; [split; [done|by intros [_ ?]]|].
    intros c [->|Hc%list_elem_of_singleton]%elem_of_cons; [done|by subst c].
Qed.

(** A failed fetch: the error is returned and no reset is run. *)
Example pullLocalVitess_fetch_fails :
  pullLocalVitess samples.join_with_slash samples.fetch_fails "/src"
  = (Some "exit status 128",
     [ {| cmd_dir := "/src/vitess"; cmd_line := ["git"; "fetch"; "origin"; "--tags"] |} ]).
Proof. reflexivity. Qed.

End vitess_properties.


(** ** One attempt of a run *)
Section single_properties.
Import mysql exec single.

Variable path_Join : string → string → string.
Variable fmt_Errorf : string → error.

(** [SetOutputToDefaultPath] changes the streams only when it returns
    nil, and then all four point to the two log files of the run's
    directory; on an [Exec] that is not prepared it opens and creates
    nothing. When the second file cannot be opened the first has been
    created and the streams are still the old ones. *)
Theorem SetOutputToDefaultPath_all_or_nothing open e o fs :
  ((SetOutputToDefaultPath path_Join open e o fs).1.1 ≠ None →
   (SetOutputToDefaultPath path_Join open e o fs).1.2 = o)
  ∧ ((SetOutputToDefaultPath path_Join open e o fs).1.1 = None →
     prepared e = true
     ∧ (SetOutputToDefaultPath path_Join open e o fs).1.2
       = {| stdout := path_Join (dirPath e) stdoutFile;
            stderr := path_Join (dirPath e) stderrFile;
            ansible_stdout := path_Join (dirPath e) stdoutFile;
            ansible_stderr := path_Join (dirPath e) stderrFile |})
  ∧ (prepared e = false →
     SetOutputToDefaultPath path_Join open e o fs = (Some ErrorNotPrepared, o, fs))
  ∧ fs ⊆ (SetOutputToDefaultPath path_Join open e o fs).2.
Proof.
  unfold SetOutputToDefaultPath.
  destruct (prepared e); cbn; [|done].
  destruct (open (path_Join (dirPath e) stdoutFile)); cbn; [done|].
  destruct (open (path_Join (dirPath e) stderrFile)); cbn.
  - split; [done|]. split; [done|]. split; [done|]. set_solver.
  - split; [done|]. split; [done|]. split; [done|]. set_solver.
Qed.

Lemma executeSingle_body_calls env config identifier db fs :
  let '(e, err, _, _, calls) :=
    executeSingle_body path_Join fmt_Errorf env config identifier db fs in
  (e = None ∧ calls = [] ∧ is_Some err)
  ∨ (is_Some e
     ∧ (calls = [CallPrepare] ∧ is_Some err
        ∨ calls = [CallPrepare; CallSetOutputToDefaultPath] ∧ is_Some err
        ∨ calls = [CallPrepare; CallSetOutputToDefaultPath; CallExecuteWithTimeout])).
Proof.
  unfold executeSingle_body.
  repeat (case_match; simplify_eq/=; eauto 10).
Qed.



(** An error of the [Success] hook replaces whatever the attempt had
    returned: when the [Exec] was created and [Success] fails,
    [executeSingle] returns the error of [Success], also after an
    execution that succeeded or that failed for another reason. *)
Theorem executeSingle_Success_error_wins env config identifier db fs e o errSuccess :
  NewExecWithConfig env config = Ok (e, o) →
  (∀ e', Success env e' = Some errSuccess) →
  (executeSingle path_Join fmt_Errorf env config identifier db fs).1.1.1
  = Some errSuccess.
Proof.
  intros HN HS.
  pose proof (executeSingle_body_calls env config identifier db fs) as Hb.
  unfold executeSingle.
  destruct (executeSingle_body _ _ _ _ _ _ _) as [[[[e1 err] db1] fs1] calls] eqn:HB.
  destruct Hb as [(-> & _ & _)|([e2 ->] & _)].
  - unfold executeSingle_body in HB. rewrite HN in HB.
    repeat (case_match; simplify_eq/=).
  - by rewrite HS.
Qed.


End single_properties.

Section single_witnesses.
Import mysql exec single.


Lemma executeSingle_Success_error_wins_witness :
  (executeSingle samples.join_with_slash samples.same_text
     {| NewExecWithConfig := λ _, Ok (samples.fresh_exec,
                                      {| stdout := "/dev/stdout"; stderr := "/dev/stderr";
                                         ansible_stdout := ""; ansible_stderr := "" |});
        prepare_answers := samples.all_prepared;
        os_OpenFile := λ _, None;
        ExecuteWithTimeout := λ e db, (None, e, db);
        Success := λ _, Some "cleanup failed" |}
     "/config.yaml" samples.A samples.empty_db ∅).1.1.1
  = Some "cleanup failed".
Proof.
  eapply executeSingle_Success_error_wins; [reflexivity|done].
Defined.

End single_witnesses.
